(** * rbf.basis: symbolic radial basis functions and their numerical evaluation

    A shallow embedding of [rbf/basis.py].  The module stores a sympy
    expression of a radial basis function, differentiates it on demand,
    patches the removable singularity at the centre with a [Piecewise],
    hands the result to [ufuncify] and caches the compiled function by
    derivative specification.

    What belongs to the repository ([_assert_shape], [RBF.__init__],
    [RBF.__call__], [RBF.add_diff_to_cache], the catalogue entry [phs1]) is
    translated statement by statement.  What belongs to its collaborators
    is modelled as follows.

    - sympy expressions are the syntax trees the Python operators build
      ([Expr]); sympy's automatic canonicalisation is not modelled.
      [free_symbols], [has] and [subs] are structural.  [diff] and [limit]
      are the two operations of an abstract [SymbolicEngine].
    - numpy arrays are a shape and row-major data of IEEE binary64 numbers
      (Rocq's primitive floats); [.T], indexing with [None], iteration,
      [np.full] and ufunc broadcasting are defined on them.
    - a function built by [ufuncify] is kept as its argument names and
      body; calling it evaluates the body element-wise in double precision
      with the C library functions of an abstract [Libm].
    - every call into the engine appends an [event] to a trace kept next to
      the object, so that "is consulted" and "is compiled again" can be
      stated.
    - arrays are objects as well: [ByReference.__call__] is the same method
      on a heap of buffers and views of them, for what a call does to the
      arrays of its caller.
    - derivative orders are natural numbers and the operations of the
      engine and [ufuncify] are functions: what sympy raises on a negative
      order, or inside [diff], [limit] or the compiler, is outside the
      model. *)

From Stdlib Require Import ZArith Floats.
From stdpp Require Import base gmap strings list pretty.

Set Default Proof Using "Type".

(* ================================================================== *)
(** * Exceptions and results *)

Inductive exn : Type :=
  | ValueError (msg : string)
  | TypeError (msg : string)
  | KeyError (msg : string).

Inductive result (A : Type) : Type :=
  | Ok (a : A)
  | Raise (e : exn).
Arguments Ok {A} a.
Arguments Raise {A} e.

Definition is_ok {A} (r : result A) : bool :=
  match r with Ok _ => true | Raise _ => false end.

(* ================================================================== *)
(** * Symbolic expressions *)

(** The part of sympy's expression language the module builds or is given.
    [a - b] is kept as [Sub a b]: sympy stores it as [a + (-1)*b] and prints
    it to C as a subtraction, which in IEEE arithmetic is the same value. *)
Inductive Expr : Type :=
  | Symbol (name : string)
  | Integer (n : Z)
  | Float (v : float)
  | Add (a b : Expr)
  | Sub (a b : Expr)
  | Mul (a b : Expr)
  | Div (a b : Expr)
  | Pow (base exponent : Expr)
  | Sqrt (a : Expr)
  | Log (a : Expr)
  | Exp (a : Expr)
  | Lt (a b : Expr)
  | BooleanTrue
  | Piecewise (e1 c1 e2 c2 : Expr).

(** [get_r()] and [get_eps()]: the symbols named [r] and [eps]; a sympy
    symbol is identified by its name. *)
Definition get_r : string := "r".
Definition get_eps : string := "eps".
Definition _R : string := get_r.
Definition _EPS : string := get_eps.

(** [expr.free_symbols] *)
Fixpoint free_symbols (e : Expr) : gset string :=
  match e with
  | Symbol s => {[ s ]}
  | Integer _ | Float _ | BooleanTrue => ∅
  | Add a b | Sub a b | Mul a b | Div a b | Pow a b | Lt a b =>
      free_symbols a ∪ free_symbols b
  | Sqrt a | Log a | Exp a => free_symbols a
  | Piecewise e1 c1 e2 c2 =>
      free_symbols e1 ∪ free_symbols c1 ∪ free_symbols e2 ∪ free_symbols c2
  end.

(** [expr.has(s)] for a symbol [s] *)
Fixpoint has (e : Expr) (s : string) : bool :=
  match e with
  | Symbol t => bool_decide (t = s)
  | Integer _ | Float _ | BooleanTrue => false
  | Add a b | Sub a b | Mul a b | Div a b | Pow a b | Lt a b =>
      has a s || has b s
  | Sqrt a | Log a | Exp a => has a s
  | Piecewise e1 c1 e2 c2 => has e1 s || has c1 s || has e2 s || has c2 s
  end.

(** [expr.subs(s, new)] for a symbol [s] *)
Fixpoint subs (e : Expr) (s : string) (new : Expr) : Expr :=
  match e with
  | Symbol t => if bool_decide (t = s) then new else Symbol t
  | Integer n => Integer n
  | Float v => Float v
  | BooleanTrue => BooleanTrue
  | Add a b => Add (subs a s new) (subs b s new)
  | Sub a b => Sub (subs a s new) (subs b s new)
  | Mul a b => Mul (subs a s new) (subs b s new)
  | Div a b => Div (subs a s new) (subs b s new)
  | Pow a b => Pow (subs a s new) (subs b s new)
  | Lt a b => Lt (subs a s new) (subs b s new)
  | Sqrt a => Sqrt (subs a s new)
  | Log a => Log (subs a s new)
  | Exp a => Exp (subs a s new)
  | Piecewise e1 c1 e2 c2 =>
      Piecewise (subs e1 s new) (subs c1 s new) (subs e2 s new) (subs c2 s new)
  end.

(** [sympy.symbols('x:%s' % dim)]: the symbols [x0 .. x(dim-1)] *)
Definition symbols (prefix : string) (dim : nat) : list string :=
  (λ i, prefix +:+ pretty i) <$> seq 0 dim.

(** The two sympy operations the module relies on but does not define:
    [e.diff(x, ..., x)] with [x] repeated [order] times, and
    [e.limit(x, c)].  They are taken as functions: an error raised inside
    sympy is not modelled. *)
Class SymbolicEngine : Type := {
  sym_diff : Expr → string → nat → Expr;
  sym_limit : Expr → string → Expr → Expr
}.

(* ================================================================== *)
(** * numpy arrays *)

Record ndarray : Type := mk_ndarray { shape : list nat; data : list float }.

(** [np.shape(a)], for an array and for a tuple of integers *)
Class Shaped (A : Type) : Type := np_shape : A → list nat.
#[export] Instance ndarray_shaped : Shaped ndarray := shape.
#[export] Instance tuple_shaped : Shaped (list nat) := λ t, [length t].

Definition product (l : list nat) : nat := foldr Nat.mul 1 l.

(** [a.shape[k]] *)
Definition shape_at (a : ndarray) (k : nat) : nat := nth k (shape a) 0.

(** [np.full(n, v, dtype=float)] *)
Definition np_full (n : nat) (v : float) : ndarray :=
  {| shape := [n]; data := replicate n v |}.

(** [a.T]; the module transposes rank-2 arrays only, and numpy leaves an
    array of rank below two as it is. *)
Definition np_T (a : ndarray) : ndarray :=
  match shape a with
  | [n; d] =>
      {| shape := [d; n];
         data := flat_map (λ j, (λ i, nth (i * d + j) (data a) nan) <$> seq 0 n)
                          (seq 0 d) |}
  | _ => a
  end.

(** [a[:,:,None]] and [a[:,None,:]]: a new axis of length one at position
    [k]; the data are those of [a]. *)
Definition newaxis (k : nat) (a : ndarray) : ndarray :=
  {| shape := take k (shape a) ++ 1 :: drop k (shape a); data := data a |}.

(** [tuple(a)]: the sub-arrays along the first axis *)
Definition np_tuple (a : ndarray) : list ndarray :=
  match shape a with
  | [] => []
  | n :: rest =>
      (λ k, {| shape := rest;
               data := take (product rest) (drop (k * product rest) (data a)) |})
        <$> seq 0 n
  end.

(** Broadcasting of two shapes, both given trailing axis first. *)
Fixpoint broadcast_rev (s t : list nat) : option (list nat) :=
  match s, t with
  | [], _ => Some t
  | _, [] => Some s
  | a :: s', b :: t' =>
      match broadcast_rev s' t' with
      | None => None
      | Some r =>
          if decide (a = b) then Some (a :: r)
          else if decide (a = 1) then Some (b :: r)
          else if decide (b = 1) then Some (a :: r)
          else None
      end
  end.

Definition broadcast_shapes (s t : list nat) : option (list nat) :=
  reverse <$> broadcast_rev (reverse s) (reverse t).

Definition broadcast_all (shapes : list (list nat)) : option (list nat) :=
  foldl (λ acc s, acc ≫= λ r, broadcast_shapes r s) (Some []) shapes.

(** All indices of an array of shape [sh], in row-major order. *)
Fixpoint ndindex (sh : list nat) : list (list nat) :=
  match sh with
  | [] => [[]]
  | n :: rest => flat_map (λ i, cons i <$> ndindex rest) (seq 0 n)
  end.

(** Flat offset of a (broadcast) index, shape and index both trailing axis
    first: an axis of length one is read at 0, leading axes of the index
    the array does not have are dropped. *)
Fixpoint ravel_rev (sh idx : list nat) (stride : nat) : nat :=
  match sh, idx with
  | n :: sh', i :: idx' =>
      (if decide (n = 1) then 0 else i) * stride + ravel_rev sh' idx' (stride * n)
  | _, _ => 0
  end.

(** The element of [a] a ufunc reads at index [idx] of its output. *)
Definition bitem (a : ndarray) (idx : list nat) : float :=
  nth (ravel_rev (reverse (shape a)) (reverse idx) 1) (data a) nan.

(** [a[idx]] for an index of the array's own rank *)
Definition item (a : ndarray) (idx : list nat) : option float :=
  if decide (length idx = length (shape a) ∧ Forall2 lt idx (shape a))
  then data a !! ravel_rev (reverse (shape a)) (reverse idx) 1
  else None.

(* ================================================================== *)
(** * Compiled functions *)

(** The C library functions the generated code calls for [**], [log] and
    [exp]; square root, the four operations and [<] are IEEE operations. *)
Class Libm : Type := {
  c_pow : float → float → float;
  c_log : float → float;
  c_exp : float → float
}.

(** The double an integer literal of the generated code denotes. *)
Definition float_of_Z (n : Z) : float :=
  match n with
  | Z0 => 0%float
  | Zpos _ => of_uint63 (Uint63.of_Z n)
  | Zneg p => (- of_uint63 (Uint63.of_Z (Zpos p)))%float
  end.

(** Value of an argument; a symbol that is no argument has no value. *)
Fixpoint lookup_arg (env : list (string * float)) (s : string) : float :=
  match env with
  | [] => nan
  | (t, v) :: rest => if bool_decide (t = s) then v else lookup_arg rest s
  end.

(** Value of an expression in double precision, and truth of a condition.
    A [Piecewise] is the nested conditional sympy prints. *)
Fixpoint eval `{Libm} (env : list (string * float)) (e : Expr) : float :=
  match e with
  | Symbol s => lookup_arg env s
  | Integer n => float_of_Z n
  | Float v => v
  | Add a b => (eval env a + eval env b)%float
  | Sub a b => (eval env a - eval env b)%float
  | Mul a b => (eval env a * eval env b)%float
  | Div a b => (eval env a / eval env b)%float
  | Pow a b => c_pow (eval env a) (eval env b)
  | Sqrt a => sqrt (eval env a)
  | Log a => c_log (eval env a)
  | Exp a => c_exp (eval env a)
  | Lt a b => if (eval env a <? eval env b)%float then 1%float else 0%float
  | BooleanTrue => 1%float
  | Piecewise e1 c1 e2 c2 =>
      if holds env c1 then eval env e1
      else if holds env c2 then eval env e2
      else nan
  end
with holds `{Libm} (env : list (string * float)) (c : Expr) : bool :=
  match c with
  | Lt a b => (eval env a <? eval env b)%float
  | BooleanTrue => true
  | _ => false
  end.

(** What [ufuncify(args, expr)] returns: a numpy ufunc of [len(args)]
    arguments computing [expr]. *)
Record ufunc : Type := mk_ufunc { ufunc_args : list string; ufunc_body : Expr }.

Definition ufuncify (args : list string) (expr : Expr) : ufunc :=
  {| ufunc_args := args; ufunc_body := expr |}.

(** Calling a ufunc: the arguments are broadcast against each other and the
    body is evaluated at every index of the common shape. *)
Definition ufunc_call `{Libm} (f : ufunc) (args : list ndarray) : result ndarray :=
  if negb (length args =? length (ufunc_args f))
  then Raise (TypeError "invalid number of arguments")
  else
    match broadcast_all (shape <$> args) with
    | None => Raise (ValueError "operands could not be broadcast together")
    | Some sh =>
        Ok {| shape := sh;
              data := (λ idx, eval (zip (ufunc_args f) ((λ a, bitem a idx) <$> args))
                                   (ufunc_body f))
                        <$> ndindex sh |}
    end.

(* ================================================================== *)
(** * The RBF object and the monad of its methods *)

Record RBF : Type := mk_RBF {
  expr : Expr;
  tol : option Expr;
  cache : gmap (list nat) ufunc;
  limits : gmap (list nat) Expr
}.

Definition set_tol (self : RBF) (t : option Expr) : RBF :=
  {| expr := expr self; tol := t; cache := cache self; limits := limits self |}.
Definition set_cache (self : RBF) (c : gmap (list nat) ufunc) : RBF :=
  {| expr := expr self; tol := tol self; cache := c; limits := limits self |}.
Definition set_limits (self : RBF) (l : gmap (list nat) Expr) : RBF :=
  {| expr := expr self; tol := tol self; cache := cache self; limits := l |}.

(** One entry per call into sympy or into the limits table. *)
Inductive event : Type :=
  | EvDiff (e : Expr) (xi : string) (order : nat)
  | EvLimitsLookup (diff : list nat)
  | EvLimit (e : Expr) (xi : string) (ci : Expr)
  | EvUfuncify (args : list string) (e : Expr).

Record state : Type := mk_state { self : RBF; trace : list event }.

(** A method body: it reads and writes the object, extends the trace, and
    returns or raises.  What was written before a raise stays written. *)
Definition M (A : Type) : Type := state → state * result A.

#[export] Instance result_ret : MRet result := λ A a, Ok a.
#[export] Instance result_bind : MBind result := λ A B f r,
  match r with Ok a => f a | Raise e => Raise e end.

#[export] Instance M_ret : MRet M := λ A a st, (st, Ok a).
#[export] Instance M_bind : MBind M := λ A B f m st,
  match m st with
  | (st', Ok a) => f a st'
  | (st', Raise e) => (st', Raise e)
  end.

Definition lift {A} (r : result A) : M A := λ st, (st, r).
Definition emit (ev : event) : M unit :=
  λ st, ({| self := self st; trace := trace st ++ [ev] |}, Ok ()).
Definition get_self : M RBF := λ st, (st, Ok (self st)).
Definition put_self (r : RBF) : M unit :=
  λ st, ({| self := r; trace := trace st |}, Ok ()).

(* ================================================================== *)
(** * _assert_shape *)

Definition rank_message (label : string) (have want : nat) : string :=
  "*" +:+ label +:+ "* is a " +:+ pretty have
  +:+ " dimensional array but it should be a " +:+ pretty want
  +:+ " dimensional array".

Definition axis_message (axis : nat) (label : string) (i j : nat) : string :=
  "axis " +:+ pretty axis +:+ " of *" +:+ label +:+ "* has length " +:+ pretty i
  +:+ " but it should have length " +:+ pretty j +:+ ".".

(** The loop over [enumerate(zip(ashape, shape))] *)
Fixpoint check_axes (axis : nat) (pairs : list (nat * option nat)) (label : string)
  : result unit :=
  match pairs with
  | [] => Ok ()
  | (_, None) :: rest => check_axes (S axis) rest label
  | (i, Some j) :: rest =>
      if negb (i =? j) then Raise (ValueError (axis_message axis label i j))
      else check_axes (S axis) rest label
  end.

Definition _assert_shape {A} `{Shaped A} (a : A) (shape : list (option nat))
    (label : string) : result unit :=
  let ashape := np_shape a in
  if negb (length ashape =? length shape)
  then Raise (ValueError (rank_message label (length ashape) (length shape)))
  else check_axes 0 (zip ashape shape) label.

(* ================================================================== *)
(** * RBF.__init__ *)

Definition invalid_symbols_message : string :=
  "*expr* cannot contain any symbols other than *r* and *eps*".
Definition missing_r_message : string :=
  "*expr* must be a sympy expression containing the symbolic variable returned by *rbf.basis.get_r()*".
Definition invalid_tol_message : string :=
  "*tol* cannot contain any symbols other than *eps*".

(** [tol], when given, is already a sympy expression ([sympify] of a float
    is a [Float]). *)
Definition __init__ (expr : Expr) (tol : option Expr)
    (limits : option (gmap (list nat) Expr)) : result RBF :=
  let other_symbols := free_symbols expr ∖ {[ _R; _EPS ]} in
  if negb (size other_symbols =? 0)
  then Raise (ValueError invalid_symbols_message)
  else if negb (has expr _R)
  then Raise (ValueError missing_r_message)
  else
    let expr := if negb (has expr _EPS)
                then subs expr _R (Mul (Symbol _EPS) (Symbol _R))
                else expr in
    tol ← match tol with
          | Some t =>
              let other_symbols := free_symbols t ∖ {[ _EPS ]} in
              if negb (size other_symbols =? 0)
              then Raise (ValueError invalid_tol_message)
              else Ok (Some t)
          | None => Ok None
          end;
    let limits := match limits with None => ∅ | Some l => l end in
    Ok {| expr := expr; tol := tol; cache := ∅; limits := limits |}.

(* ================================================================== *)
(** * RBF.add_diff_to_cache and RBF.__call__ *)

(** The shape parameter argument: a scalar ([np.isscalar]) or an array. *)
Inductive eps_arg : Type :=
  | EpsScalar (v : float)
  | EpsArray (a : ndarray).

(** A derivative specification as the caller passes it.  The orders are
    natural numbers: a negative order, which sympy's [diff] refuses, is not
    among the inputs modelled. *)
Inductive pyseq : Type :=
  | PyList (items : list nat)
  | PyTuple (items : list nat).

(** [tuple(diff)] *)
Definition tuple (s : pyseq) : list nat :=
  match s with PyList l => l | PyTuple l => l end.

(** [sympy.sqrt(sum((xi-ci)**2 for xi,ci in zip(x_sym,c_sym)))]; Python's
    [sum] starts from the integer 0. *)
Definition radial_distance (x_sym c_sym : list string) : Expr :=
  Sqrt (foldl Add (Integer 0)
          (zip_with (λ xi ci, Pow (Sub (Symbol xi) (Symbol ci)) (Integer 2))
                    x_sym c_sym)).

Section Methods.
Context `{SymbolicEngine}.

(** [for xi,order in zip(x_sym,diff)]: differentiate where the order is
    not zero. *)
Fixpoint differentiate (expr : Expr) (pairs : list (string * nat)) : M Expr :=
  match pairs with
  | [] => mret expr
  | (xi, order) :: rest =>
      if decide (order = 0) then differentiate expr rest
      else emit (EvDiff expr xi order);;
           differentiate (sym_diff expr xi order) rest
  end.

(** [for xi,ci in zip(x_sym,c_sym): lim = lim.limit(xi,ci)] *)
Fixpoint take_limits (lim : Expr) (pairs : list (string * string)) : M Expr :=
  match pairs with
  | [] => mret lim
  | (xi, ci) :: rest =>
      emit (EvLimit lim xi (Symbol ci));;
      take_limits (sym_limit lim xi (Symbol ci)) rest
  end.

Definition add_diff_to_cache (diff : list nat) : M unit :=
  lift (_assert_shape diff [None] "diff");;
  let dim := length diff in
  let c_sym := symbols "c" dim in
  let x_sym := symbols "x" dim in
  let r_sym := radial_distance x_sym c_sym in
  self ← get_self;
  expr ← differentiate (subs (expr self) _R r_sym) (zip x_sym diff);
  expr ← match tol self with
         | Some tol =>
             emit (EvLimitsLookup diff);;
             lim ← match limits self !! diff with
                   | Some lim => mret lim
                   | None => take_limits expr (zip x_sym c_sym)
                   end;
             mret (Piecewise lim (Lt r_sym tol) expr BooleanTrue)
         | None => mret expr
         end;
  let args := x_sym ++ c_sym ++ [_EPS] in
  emit (EvUfuncify args expr);;
  let func := ufuncify args expr in
  self ← get_self;
  put_self (set_cache self (<[diff := func]> (cache self))).

Context `{Libm}.

(** [x] and [c] are what [np.asarray(., dtype=float)] returns. *)
Definition __call__ (x c : ndarray) (eps : eps_arg) (diff : option pyseq)
    : M ndarray :=
  lift (_assert_shape x [None; None] "x");;
  lift (_assert_shape c [None; Some (shape_at x 1)] "c");;
  let eps := match eps with
             | EpsScalar v => np_full (shape_at c 0) v
             | EpsArray a => a
             end in
  lift (_assert_shape eps [Some (shape_at c 0)] "eps");;
  let diff := match diff with
              | None => replicate (shape_at x 1) 0
              | Some d => tuple d
              end in
  lift (_assert_shape diff [Some (shape_at x 1)] "diff");;
  let x := newaxis 2 (np_T x) in
  let c := newaxis 1 (np_T c) in
  self ← get_self;
  match cache self !! diff with
  | None => add_diff_to_cache diff
  | Some _ => mret ()
  end;;
  let args := np_tuple x ++ np_tuple c ++ [eps] in
  self ← get_self;
  match cache self !! diff with
  | Some func => lift (ufunc_call func args)
  | None => lift (Raise (KeyError "diff"))
  end.

End Methods.

(* ================================================================== *)
(** * Arrays as objects *)

(** numpy arrays are mutable objects and are passed by reference.  The heap
    holds the buffers; an array object is a buffer seen through a view.
    [.T], indexing with slices and [None], and iterating over an array all
    return views: they hold no data of their own and read the buffer of the
    array they were taken from. *)
Record pyarray : Type := mk_pyarray { base : nat; through : ndarray → ndarray }.

(** The array that owns buffer [l]. *)
Definition whole (l : nat) : pyarray := {| base := l; through := id |}.

(** A view of an array object. *)
Definition view (a : pyarray) (f : ndarray → ndarray) : pyarray :=
  {| base := base a; through := f ∘ through a |}.

(** The object a method is called on, and the arrays alive around it. *)
Record world : Type := mk_world { object : state; heap : list ndarray }.

(** What an array object holds at present. *)
Definition value_of (w : world) (a : pyarray) : option ndarray :=
  through a <$> heap w !! base a.

(** A computation on the object and the heap. *)
Definition W (A : Type) : Type := world → world * result A.

#[export] Instance W_ret : MRet W := λ A a w, (w, Ok a).
#[export] Instance W_bind : MBind W := λ A B f m w,
  match m w with
  | (w', Ok a) => f a w'
  | (w', Raise e) => (w', Raise e)
  end.

Definition lift_result {A} (r : result A) : W A := λ w, (w, r).

(** A method of the object: the heap is not its business. *)
Definition on_object {A} (m : M A) : W A :=
  λ w, ({| object := (m (object w)).1; heap := heap w |}, (m (object w)).2).

(** A function that works on the arrays only, such as [_replace_nan]. *)
Definition on_heap {A} (f : list ndarray → list ndarray * result A) : W A :=
  λ w, ({| object := object w; heap := (f (heap w)).1 |}, (f (heap w)).2).

(** Reading an array object. *)
Definition fetch (a : pyarray) : W ndarray :=
  λ w, match value_of w a with
       | Some v => (w, Ok v)
       | None => (w, Raise (TypeError "unbound reference"))
       end.

Fixpoint fetch_all (args : list pyarray) : W (list ndarray) :=
  match args with
  | [] => mret []
  | a :: rest => v ← fetch a; vs ← fetch_all rest; mret (v :: vs)
  end.

(** A new array: a new buffer at the end of the heap. *)
Definition allocate (a : ndarray) : W pyarray :=
  λ w, ({| object := object w; heap := heap w ++ [a] |},
        Ok (whole (length (heap w)))).

(** The shape parameter as the caller passes it: a scalar or an array
    object. *)
Inductive eps_ref : Type :=
  | EpsValue (v : float)
  | EpsRef (a : pyarray).

Definition eps_value (w : world) (eps : eps_ref) : option eps_arg :=
  match eps with
  | EpsValue v => Some (EpsScalar v)
  | EpsRef a => EpsArray <$> value_of w a
  end.

(** The array [tuple(a)] yields when [a] has no [k]-th sub-array. *)
Definition no_array : ndarray := {| shape := []; data := [] |}.

Module ByReference.
Section Methods.
Context `{SymbolicEngine} `{Libm}.

(** [np.asarray(a, dtype=float)] of an array of floats is that array: no
    copy is made. *)
Definition np_asarray (a : pyarray) : W pyarray := mret a.

(** [tuple(a)]: one view for every index of the first axis *)
Definition tuple_views (a : pyarray) : W (list pyarray) :=
  v ← fetch a;
  mret ((λ k, view a (λ b, nth k (np_tuple b) no_array))
          <$> seq 0 (length (np_tuple v))).

(** The call of a ufunc on its inputs only, with no [out] argument: it
    reads them and returns a new array. *)
Definition call_ufunc (func : ufunc) (args : list pyarray) : W pyarray :=
  vals ← fetch_all args;
  out ← lift_result (ufunc_call func vals);
  allocate out.

(** [RBF.__call__] statement by statement, on array objects. *)
Definition __call__ (x c : pyarray) (eps : eps_ref) (diff : option pyseq)
    : W pyarray :=
  x ← np_asarray x;
  xv ← fetch x;
  lift_result (_assert_shape xv [None; None] "x");;
  c ← np_asarray c;
  cv ← fetch c;
  lift_result (_assert_shape cv [None; Some (shape_at xv 1)] "c");;
  eps ← match eps with
        | EpsValue v => allocate (np_full (shape_at cv 0) v)
        | EpsRef a => np_asarray a
        end;
  ev ← fetch eps;
  lift_result (_assert_shape ev [Some (shape_at cv 0)] "eps");;
  let diff := match diff with
              | None => replicate (shape_at xv 1) 0
              | Some d => tuple d
              end in
  lift_result (_assert_shape diff [Some (shape_at xv 1)] "diff");;
  let x := view x (λ a, newaxis 2 (np_T a)) in
  let c := view c (λ a, newaxis 1 (np_T a)) in
  self ← on_object get_self;
  match cache self !! diff with
  | None => on_object (add_diff_to_cache diff)
  | Some _ => mret ()
  end;;
  xs ← tuple_views x;
  cs ← tuple_views c;
  let args := xs ++ cs ++ [eps] in
  self ← on_object get_self;
  match cache self !! diff with
  | Some func => call_ufunc func args
  | None => lift_result (Raise (KeyError "diff"))
  end.

End Methods.
End ByReference.


(* ================================================================== *)
(** * The catalogue entry phs1 *)

(** Modelled from the spec: [rbf.poly.powers] is not among the sources.  It
    is the index-generation helper that enumerates the derivative
    multi-indices up to a given order: here, all tuples of length [dim]
    whose entries sum to at most [order]. *)
Fixpoint powers (order dim : nat) : list (list nat) :=
  match dim with
  | 0 => [[]]
  | S d => flat_map (λ k, cons k <$> powers (order - k) d) (seq 0 (S order))
  end.

(** [for i in keys: self.limits[tuple(i)] = v] *)
Definition seed_limits (self : RBF) (keys : list (list nat)) (v : Expr) : RBF :=
  foldl (λ self i, set_limits self (<[i := v]> (limits self))) self keys.

(** The double nearest to the literal [1e-10]. *)
Definition tol_1e_10 : float := 0x1.b7cdfd9d7bdbbp-34%float.

(** [phs1 = RBF(_EPS*_R)], then [phs1.tol = 1e-10] and the three loops
    over [powers(0,1)], [powers(0,2)], [powers(0,3)]. *)
Definition phs1 : result RBF :=
  phs1 ← __init__ (Mul (Symbol _EPS) (Symbol _R)) None None;
  let phs1 := set_tol phs1 (Some (Float tol_1e_10)) in
  let phs1 := seed_limits phs1 (powers 0 1) (Integer 0) in
  let phs1 := seed_limits phs1 (powers 0 2) (Integer 0) in
  let phs1 := seed_limits phs1 (powers 0 3) (Integer 0) in
  Ok phs1.

(* ================================================================== *)
(** * A small engine and C library to run the model on *)

(** Differentiation by the textbook rules, without simplification. *)
Fixpoint deriv (e : Expr) (x : string) : Expr :=
  match e with
  | Symbol t => if bool_decide (t = x) then Integer 1 else Integer 0
  | Integer _ | Float _ | BooleanTrue | Lt _ _ => Integer 0
  | Add a b => Add (deriv a x) (deriv b x)
  | Sub a b => Sub (deriv a x) (deriv b x)
  | Mul a b => Add (Mul (deriv a x) b) (Mul a (deriv b x))
  | Div a b => Div (Sub (Mul (deriv a x) b) (Mul a (deriv b x))) (Pow b (Integer 2))
  | Pow a b =>
      Mul (Pow a b)
          (Add (Mul (deriv b x) (Log a)) (Div (Mul b (deriv a x)) a))
  | Sqrt a => Div (deriv a x) (Mul (Integer 2) (Sqrt a))
  | Log a => Div (deriv a x) a
  | Exp a => Mul (Exp a) (deriv a x)
  | Piecewise e1 c1 e2 c2 => Piecewise (deriv e1 x) c1 (deriv e2 x) c2
  end.

(** Limits by substitution. *)
Definition textbook_engine : SymbolicEngine :=
  {| sym_diff e x n := Nat.iter n (λ e, deriv e x) e;
     sym_limit e x c := subs e x c |}.

(** Integer powers by repeated multiplication; no logarithm, no
    exponential. *)
Definition small_libm : Libm :=
  {| c_pow b e :=
       if (e =? 2)%float then (b * b)%float
       else if (e =? 1)%float then b
       else nan;
     c_log _ := nan;
     c_exp _ := nan |}.


(* ================================================================== *)
(** * What a compilation produces *)

(** The results of the two loops of [add_diff_to_cache] and the calls they
    make, as functions of the object; [add_diff_to_cache_run] below shows
    that the method computes exactly these. *)
Section Compiled.
Context `{SymbolicEngine}.

Fixpoint differentiated (expr : Expr) (pairs : list (string * nat)) : Expr :=
  match pairs with
  | [] => expr
  | (xi, order) :: rest =>
      if decide (order = 0) then differentiated expr rest
      else differentiated (sym_diff expr xi order) rest
  end.

Fixpoint diff_events (expr : Expr) (pairs : list (string * nat)) : list event :=
  match pairs with
  | [] => []
  | (xi, order) :: rest =>
      if decide (order = 0) then diff_events expr rest
      else EvDiff expr xi order :: diff_events (sym_diff expr xi order) rest
  end.

Fixpoint iterated_limit (lim : Expr) (pairs : list (string * string)) : Expr :=
  match pairs with
  | [] => lim
  | (xi, ci) :: rest => iterated_limit (sym_limit lim xi (Symbol ci)) rest
  end.

Fixpoint limit_events (lim : Expr) (pairs : list (string * string)) : list event :=
  match pairs with
  | [] => []
  | (xi, ci) :: rest =>
      EvLimit lim xi (Symbol ci) :: limit_events (sym_limit lim xi (Symbol ci)) rest
  end.

Definition x_sym_of (diff : list nat) : list string := symbols "x" (length diff).
Definition c_sym_of (diff : list nat) : list string := symbols "c" (length diff).
Definition r_sym_of (diff : list nat) : Expr :=
  radial_distance (x_sym_of diff) (c_sym_of diff).
Definition args_of (diff : list nat) : list string :=
  x_sym_of diff ++ c_sym_of diff ++ [_EPS].

(** The differentiated expression. *)
Definition diff_expr (self : RBF) (diff : list nat) : Expr :=
  differentiated (subs (expr self) _R (r_sym_of diff)) (zip (x_sym_of diff) diff).

(** The limiting value, when a tolerance is set. *)
Definition limit_value (self : RBF) (diff : list nat) : Expr :=
  match limits self !! diff with
  | Some lim => lim
  | None => iterated_limit (diff_expr self diff) (zip (x_sym_of diff) (c_sym_of diff))
  end.

(** The expression handed to [ufuncify]. *)
Definition compiled_expr (self : RBF) (diff : list nat) : Expr :=
  match tol self with
  | Some t => Piecewise (limit_value self diff) (Lt (r_sym_of diff) t)
                        (diff_expr self diff) BooleanTrue
  | None => diff_expr self diff
  end.

Definition compiled (self : RBF) (diff : list nat) : ufunc :=
  ufuncify (args_of diff) (compiled_expr self diff).

(** The calls made while compiling, in order. *)
Definition compile_events (self : RBF) (diff : list nat) : list event :=
  diff_events (subs (expr self) _R (r_sym_of diff)) (zip (x_sym_of diff) diff)
  ++ match tol self with
     | Some _ =>
         EvLimitsLookup diff ::
         match limits self !! diff with
         | Some _ => []
         | None => limit_events (diff_expr self diff)
                                (zip (x_sym_of diff) (c_sym_of diff))
         end
     | None => []
     end
  ++ [EvUfuncify (args_of diff) (compiled_expr self diff)].

(** The state a compilation of [key] leaves. *)
Definition after_compile (st : state) (key : list nat) : state :=
  {| self := set_cache (self st)
               (<[key := compiled (self st) key]> (cache (self st)));
     trace := trace st ++ compile_events (self st) key |}.

(** Every cached function is the one compiled from the object's present
    expression, tolerance and limits. *)
Definition cache_inv (self : RBF) : Prop :=
  ∀ k f, cache self !! k = Some f → f = compiled self k.

(** Every cached function takes the coordinates of a point, the
    coordinates of a centre and [eps]; this survives an assignment to
    [tol] or [limits] after a compilation, which [cache_inv] does not. *)
Definition cache_arity (self : RBF) : Prop :=
  ∀ k f, cache self !! k = Some f →
         length (ufunc_args f) = length k + (length k + 1).

(** The symbolic limit of the undifferentiated function in [D] dimensions
    is an expression whose value is [0]. *)
Definition symbolic_limit_is_zero `{Libm} (self : RBF) (D : nat) : Prop :=
  ∀ env,
    eval env (iterated_limit (diff_expr self (replicate D 0))
                (zip (x_sym_of (replicate D 0)) (c_sym_of (replicate D 0))))
    = 0%float.

End Compiled.

(** The states an object passes through when it is only called. *)
Inductive called_from `{SymbolicEngine} `{Libm} (st0 : state) : state → Prop :=
  | called_from_start : called_from st0 st0
  | called_from_call st x c eps diff :
      called_from st0 st → called_from st0 (__call__ x c eps diff st).1.

(** The states an object passes through when it is called and when
    [add_diff_to_cache] is called on it directly. *)
Inductive used_from `{SymbolicEngine} `{Libm} (st0 : state) : state → Prop :=
  | used_from_start : used_from st0 st0
  | used_from_call st x c eps diff :
      used_from st0 st → used_from st0 (__call__ x c eps diff st).1
  | used_from_compile st diff :
      used_from st0 st → used_from st0 (add_diff_to_cache diff st).1.

(** The key under which [__call__] looks up the cache. *)
Definition diff_key (x : ndarray) (diff : option pyseq) : list nat :=
  match diff with
  | None => replicate (shape_at x 1) 0
  | Some d => tuple d
  end.

(** The array [__call__] makes of [eps]. *)
Definition eps_array (c : ndarray) (eps : eps_arg) : ndarray :=
  match eps with
  | EpsScalar v => np_full (shape_at c 0) v
  | EpsArray a => a
  end.

(** The arguments [__call__] passes to the compiled function. *)
Definition call_args (x c : ndarray) (eps : eps_arg) : list ndarray :=
  np_tuple (newaxis 2 (np_T x)) ++ np_tuple (newaxis 1 (np_T c))
  ++ [eps_array c eps].

(** The four shape checks of [__call__], in the order it makes them. *)
Definition shape_checks (x c : ndarray) (eps : eps_arg) (diff : option pyseq)
    : result unit :=
  _assert_shape x [None; None] "x";;
  _assert_shape c [None; Some (shape_at x 1)] "c";;
  _assert_shape (eps_array c eps) [Some (shape_at c 0)] "eps";;
  _assert_shape (diff_key x diff) [Some (shape_at x 1)] "diff".

(** An event that consults the limits table or takes a symbolic limit. *)
Definition is_limit_event (ev : event) : bool :=
  match ev with
  | EvLimitsLookup _ | EvLimit _ _ _ => true
  | _ => false
  end.

(* ================================================================== *)
(** * The helpers _replace_nan and _fix_lambdified_output *)

(** [x[np.isnan(x)] = 0.0]: the contents of [x] after the assignment. *)
Definition nan_to_zero (x : ndarray) : ndarray :=
  {| shape := shape x;
     data := (λ v, if is_nan v then 0%float else v) <$> data x |}.

(** [_replace_nan(x)] on a store of arrays: the array behind the reference
    is overwritten and the reference itself is returned. *)
Definition _replace_nan (x : nat) (store : list ndarray)
    : list ndarray * result nat :=
  match store !! x with
  | Some a => (<[x := nan_to_zero a]> store, Ok x)
  | None => (store, Raise (TypeError "unbound reference"))
  end.

(** [np.full(shape, v, dtype=float)] for a tuple [shape] *)
Definition np_full_shape (sh : list nat) (v : float) : ndarray :=
  {| shape := sh; data := replicate (product sh) v |}.

(** What a lambdified function returns: a scalar ([np.isscalar]) or an
    array. *)
Inductive np_value : Type :=
  | Scalar (v : float)
  | Array (a : ndarray).

(** How a call of the wrapped function ends badly: the inner function
    raised, or an index was out of range ([args[0]], [args[-1]],
    [x.shape[0]], [eps.shape[0]]). *)
Inductive wrapper_error : Type :=
  | Raised (e : exn)
  | IndexError (msg : string).

(** The function [_fix_lambdified_output(fin)] called on [args]; the
    keyword arguments only pass through to [fin] and are part of it here. *)
Definition _fix_lambdified_output (fin : list ndarray → result np_value)
    (args : list ndarray) : wrapper_error + np_value :=
  match fin args with
  | Raise e => inl (Raised e)
  | Ok out =>
      match head args, last args with
      | Some x, Some eps =>
          match out with
          | Scalar v =>
              match shape x, shape eps with
              | n :: _, m :: _ => inr (Array (np_full_shape [n; m] v))
              | _, _ => inl (IndexError "tuple index out of range")
              end
          | Array _ => inr out
          end
      | _, _ => inl (IndexError "tuple index out of range")
      end
  end.

(* ================================================================== *)
(** * The rest of the catalogue *)

(** [-e], which sympy keeps as [(-1)*e] *)
Definition neg (e : Expr) : Expr := Mul (Integer (-1)) e.

Definition eps_r : Expr := Mul (Symbol _EPS) (Symbol _R).

Definition phs8_expr : Expr := Mul (Pow eps_r (Integer 8)) (Log eps_r).
Definition phs6_expr : Expr := Mul (Pow eps_r (Integer 6)) (Log eps_r).
Definition phs4_expr : Expr := Mul (Pow eps_r (Integer 4)) (Log eps_r).
Definition phs2_expr : Expr := Mul (Pow eps_r (Integer 2)) (Log eps_r).
Definition phs7_expr : Expr := Pow eps_r (Integer 7).
Definition phs5_expr : Expr := Pow eps_r (Integer 5).
Definition phs3_expr : Expr := Pow eps_r (Integer 3).
Definition phs1_expr : Expr := eps_r.
Definition imq_expr : Expr :=
  Div (Integer 1) (Sqrt (Add (Integer 1) (Pow eps_r (Integer 2)))).
Definition iq_expr : Expr :=
  Div (Integer 1) (Add (Integer 1) (Pow eps_r (Integer 2))).
Definition ga_expr : Expr := Exp (neg (Pow eps_r (Integer 2))).
Definition mq_expr : Expr := Sqrt (Add (Integer 1) (Pow eps_r (Integer 2))).
Definition exp_expr : Expr := Exp (Div (neg (Symbol _R)) (Symbol _EPS)).
Definition se_expr : Expr :=
  Exp (Div (neg (Pow (Symbol _R) (Integer 2)))
           (Mul (Integer 2) (Pow (Symbol _EPS) (Integer 2)))).
Definition mat32_expr : Expr :=
  Mul (Add (Integer 1)
           (Div (Mul (Sqrt (Integer 3)) (Symbol _R)) (Symbol _EPS)))
      (Exp (Div (Mul (neg (Sqrt (Integer 3))) (Symbol _R)) (Symbol _EPS))).
Definition mat52_expr : Expr :=
  Mul (Add (Add (Integer 1)
                (Div (Mul (Sqrt (Integer 5)) (Symbol _R)) (Symbol _EPS)))
           (Div (Mul (Integer 5) (Pow (Symbol _R) (Integer 2)))
                (Mul (Integer 3) (Pow (Symbol _EPS) (Integer 2)))))
      (Exp (Div (Mul (neg (Sqrt (Integer 5))) (Symbol _R)) (Symbol _EPS))).

(** The sixteen constructor calls, in the order of the module. *)
Definition catalogue_exprs : list Expr :=
  [phs8_expr; phs6_expr; phs4_expr; phs2_expr; phs7_expr; phs5_expr;
   phs3_expr; phs1_expr; imq_expr; iq_expr; ga_expr; mq_expr; exp_expr;
   se_expr; mat32_expr; mat52_expr].

(** [phsK = RBF(...)], [phsK.tol = 1e-10] and the three loops over
    [powers(K-1, 1)], [powers(K-1, 2)], [powers(K-1, 3)]. *)
Definition load_phs (e : Expr) (K : nat) : result RBF :=
  self ← __init__ e None None;
  let self := set_tol self (Some (Float tol_1e_10)) in
  let self := seed_limits self (powers (K - 1) 1) (Integer 0) in
  let self := seed_limits self (powers (K - 1) 2) (Integer 0) in
  let self := seed_limits self (powers (K - 1) 3) (Integer 0) in
  Ok self.

Definition phs2 : result RBF := load_phs phs2_expr 2.
Definition phs3 : result RBF := load_phs phs3_expr 3.
Definition phs4 : result RBF := load_phs phs4_expr 4.
Definition phs5 : result RBF := load_phs phs5_expr 5.
Definition phs6 : result RBF := load_phs phs6_expr 6.
Definition phs7 : result RBF := load_phs phs7_expr 7.
Definition phs8 : result RBF := load_phs phs8_expr 8.

(** The polyharmonic splines with their orders. *)
Definition phs_family : list (result RBF * nat) :=
  [(phs1, 1); (phs2, 2); (phs3, 3); (phs4, 4); (phs5, 5); (phs6, 6);
   (phs7, 7); (phs8, 8)].

(** [1e-10*_EPS] *)
Definition mat_tol : Expr := Mul (Float tol_1e_10) (Symbol _EPS).

(** [mat32 = RBF(...)], [mat32.tol = 1e-10*_EPS], [mat32.limits = {...}] *)
Definition mat32 : result RBF :=
  self ← __init__ mat32_expr None None;
  let self := set_tol self (Some mat_tol) in
  let m3 := Div (Integer (-3)) (Pow (Symbol _EPS) (Integer 2)) in
  Ok (set_limits self
        (list_to_map
           [([0], Integer 1); ([1], Integer 0); ([2], m3);
            ([0; 0], Integer 1); ([1; 0], Integer 0); ([0; 1], Integer 0);
            ([2; 0], m3); ([0; 2], m3); ([1; 1], Integer 0)])).

Definition mat52 : result RBF :=
  self ← __init__ mat52_expr None None;
  let self := set_tol self (Some mat_tol) in
  let m5 := Div (Integer (-5)) (Mul (Integer 3) (Pow (Symbol _EPS) (Integer 2))) in
  Ok (set_limits self
        (list_to_map
           [([0], Integer 1); ([1], Integer 0); ([2], m5); ([3], Integer 0);
            ([4], Div (Integer 25) (Pow (Symbol _EPS) (Integer 4)));
            ([0; 0], Integer 1); ([1; 0], Integer 0); ([0; 1], Integer 0);
            ([2; 0], m5); ([0; 2], m5); ([1; 1], Integer 0)])).

(* ================================================================== *)
(** * The arguments of one entry of the result *)

(** What the compiled function is applied to at entry [(i, k)]: the
    coordinates of point [i], those of centre [k], and the shape parameter
    of centre [k], under the names [x0..], [c0..], [eps]. *)
Definition point_env (x c : ndarray) (eps : eps_arg) (D i k : nat)
    : list (string * float) :=
  ((λ j, ("x" +:+ pretty j, nth (i * D + j) (data x) nan)) <$> seq 0 D)
  ++ ((λ j, ("c" +:+ pretty j, nth (k * D + j) (data c) nan)) <$> seq 0 D)
  ++ [(_EPS, nth k (data (eps_array c eps)) nan)].

(** A call of sympy's [diff]. *)
Definition is_diff_event (ev : event) : bool :=
  match ev with EvDiff _ _ _ => true | _ => false end.

(** A constructed object with a numeric tolerance and one tabulated
    derivative limit. *)
Definition tabulated_state : state :=
  {| self := {| expr := Mul (Symbol "eps") (Symbol "r");
                tol := Some (Float tol_1e_10);
                cache := ∅;
                limits := {[ [1; 0] := Integer 7 ]} |};
     trace := [] |}.

(* ================================================================== *)
(** * Sample inputs *)

(** Three points and two centres in the plane; the first point is the
    second centre and the second point is the first centre. *)
Definition sample_x : ndarray :=
  {| shape := [3; 2]; data := [0; 0; 3; 4; 6; 8]%float |}.
Definition sample_c : ndarray :=
  {| shape := [2; 2]; data := [3; 4; 0; 0]%float |}.

(** A rank-1 array, and arrays with no spatial axis. *)
Definition rank1_x : ndarray := {| shape := [3]; data := [1; 2; 3]%float |}.
Definition no_axis_x : ndarray := {| shape := [2; 0]; data := [] |}.
Definition no_axis_c : ndarray := {| shape := [3; 0]; data := [] |}.

(** Two points and one centre on the line. *)
Definition line_x : ndarray := {| shape := [2; 1]; data := [1; 2]%float |}.
Definition line_c : ndarray := {| shape := [1; 1]; data := [1]%float |}.

(** A newly constructed [RBF(eps*r)] and the loaded [phs1], neither called
    yet. *)
Definition new_state : state :=
  {| self := {| expr := Mul (Symbol "eps") (Symbol "r"); tol := None;
                cache := ∅; limits := ∅ |};
     trace := [] |}.

Definition phs1_loaded : RBF :=
  {| expr := Mul (Symbol "eps") (Symbol "r");
     tol := Some (Float tol_1e_10);
     cache := ∅;
     limits := <[ [0; 0; 0] := Integer 0 ]>
                 (<[ [0; 0] := Integer 0 ]> (<[ [0] := Integer 0 ]> ∅)) |}.

Definition phs1_state : state := {| self := phs1_loaded; trace := [] |}.

(* ================================================================== *)
(** * IEEE facts *)

Lemma shl_align_same m e : shl_align m e e = (m, e).
Proof. unfold shl_align. by rewrite Z.sub_diag. Qed.

Lemma SFsub_diag v :
  match v with S754_nan | S754_infinity _ => False | _ => True end →
  SF64sub v v = S754_zero false.
Proof.
  destruct v as [s|s| |s m e]; simpl; try tauto; intros _.
  - by destruct s.
  - unfold SF64sub, SFsub.
    rewrite Z.min_id, shl_align_same. simpl fst.
    by rewrite Z.sub_diag.
Qed.

Lemma is_finite_SF x :
  is_finite x = true →
  match Prim2SF x with S754_nan | S754_infinity _ => False | _ => True end.
Proof.
  unfold is_finite, is_nan, is_infinity.
  rewrite !FloatAxioms.eqb_spec, abs_spec.
  destruct (Prim2SF x) as [s|s| |s m e]; simpl; auto.
  - replace (Prim2SF infinity) with (S754_infinity false) by (by vm_compute).
    by destruct s.
  - discriminate.
Qed.

(** A finite double minus itself is [+0]. *)
Lemma sub_diag_finite x : is_finite x = true → (x - x)%float = 0%float.
Proof.
  intros Hx. apply Prim2SF_inj.
  rewrite sub_spec, SFsub_diag; [done|]. by apply is_finite_SF.
Qed.

(* ================================================================== *)
(** * Expressions: symbols and substitution *)

Lemma has_free_symbols e s : has e s = true ↔ s ∈ free_symbols e.
Proof.
  induction e; simpl;
    rewrite ?orb_true_iff, ?bool_decide_eq_true, ?elem_of_union,
      ?elem_of_singleton, ?elem_of_empty;
    intuition congruence.
Qed.

Lemma has_false_free_symbols e s : has e s = false ↔ s ∉ free_symbols e.
Proof. rewrite <- has_free_symbols. by destruct (has e s). Qed.

(** The test [len(other_symbols) != 0] of the constructor. *)
Lemma other_symbols_test (fs allowed : gset string) :
  negb (size (fs ∖ allowed) =? 0) = true ↔ ∃ s, s ∈ fs ∧ s ∉ allowed.
Proof.
  rewrite negb_true_iff, Nat.eqb_neq, size_non_empty_iff.
  split.
  - intros Hne. apply set_choose in Hne as [s Hs]. exists s.
    by apply elem_of_difference in Hs.
  - intros (s & Hfs & Hallowed) Hempty.
    assert (Hs : s ∈ fs ∖ allowed) by by apply elem_of_difference.
    rewrite Hempty in Hs. by apply elem_of_empty in Hs.
Qed.

Lemma other_symbols_test_false (fs allowed : gset string) :
  negb (size (fs ∖ allowed) =? 0) = false ↔ fs ⊆ allowed.
Proof.
  rewrite negb_false_iff, Nat.eqb_eq, size_empty_iff. split.
  - intros Hempty s Hs. destruct (decide (s ∈ allowed)) as [|Hout]; [done|].
    assert (Hin : s ∈ fs ∖ allowed) by by apply elem_of_difference.
    rewrite Hempty in Hin. by apply elem_of_empty in Hin.
  - intros Hsub. apply elem_of_equiv_empty. intros s Hs.
    apply elem_of_difference in Hs as [Hfs Hout]. by apply Hout, Hsub.
Qed.

(** Substituting an expression that contains [t] for a symbol that occurs
    gives an expression that contains [t]. *)
Lemma has_subs e s new t :
  has e s = true → has new t = true → has (subs e s new) t = true.
Proof.
  intros He Hnew. induction e; simpl in *; try discriminate;
    repeat match goal with
           | H : _ || _ = true |- _ => apply orb_true_iff in H as [H|H]
           end;
    rewrite ?orb_true_iff; auto 6.
  by rewrite He.
Qed.

(** Substituting for a symbol that does not occur changes nothing. *)
Lemma subs_absent e s new : has e s = false → subs e s new = e.
Proof.
  induction e; simpl; intros Hs;
    repeat match goal with
           | H : _ || _ = false |- _ => apply orb_false_iff in H as [H ?]
           end;
    try (f_equal; by auto).
  by rewrite Hs.
Qed.

(* ================================================================== *)
(** * The constructor *)

(** What [__init__] returns when it returns. *)
Lemma init_ok e tolerance lims self :
  __init__ e tolerance lims = Ok self →
  free_symbols e ⊆ {[ _R; _EPS ]} ∧ has e _R = true ∧
  expr self = (if has e _EPS then e else subs e _R (Mul (Symbol _EPS) (Symbol _R))) ∧
  tol self = tolerance ∧ cache self = ∅ ∧
  limits self = match lims with None => ∅ | Some l => l end.
Proof.
  unfold __init__.
  destruct (negb (size _ =? 0)) eqn:Hsym; [done|].
  apply other_symbols_test_false in Hsym.
  destruct (has e _R) eqn:HR; [|done]. simpl.
  destruct tolerance as [t|]; simpl.
  - destruct (negb (size _ =? 0)); [done|]. simpl.
    intros [= <-]. simpl. by destruct (has e _EPS).
  - intros [= <-]. simpl. by destruct (has e _EPS).
Qed.

(** C4 as stated does not hold: the symbol [y] does not depend on [r], yet
    the constructor reports the invalid-symbols error, because that check
    comes first. *)
Lemma init_missing_r_counterexample :
  has (Symbol "y") _R = false ∧
  __init__ (Symbol "y") None None = Raise (ValueError invalid_symbols_message) ∧
  invalid_symbols_message ≠ missing_r_message.
Proof. by vm_compute. Qed.

(** C4 (amended): construction raises the invalid-symbols error when the
    expression has a free symbol other than [r] and [eps]; it raises the
    missing-radial-variable error when the expression has no such symbol
    and does not contain [r]; in either case no object is returned. *)
Theorem init_rejects (e : Expr) (tolerance : option Expr)
    (lims : option (gmap (list nat) Expr)) :
  ((∃ s, s ∈ free_symbols e ∧ s ∉ ({[ _R; _EPS ]} : gset string)) →
     __init__ e tolerance lims = Raise (ValueError invalid_symbols_message)) ∧
  (free_symbols e ⊆ {[ _R; _EPS ]} → has e _R = false →
     __init__ e tolerance lims = Raise (ValueError missing_r_message)) ∧
  ((∃ s, s ∈ free_symbols e ∧ s ∉ ({[ _R; _EPS ]} : gset string)) ∨ has e _R = false →
     is_ok (__init__ e tolerance lims) = false).
Proof.
  assert (H1 : (∃ s, s ∈ free_symbols e ∧ s ∉ ({[ _R; _EPS ]} : gset string)) →
               __init__ e tolerance lims = Raise (ValueError invalid_symbols_message)).
  { intros Hs. apply other_symbols_test in Hs. unfold __init__. by rewrite Hs. }
  assert (H2 : free_symbols e ⊆ {[ _R; _EPS ]} → has e _R = false →
               __init__ e tolerance lims = Raise (ValueError missing_r_message)).
  { intros Hs HR. apply other_symbols_test_false in Hs.
    unfold __init__. by rewrite Hs, HR. }
  split; [done|]. split; [done|].
  intros [Hs|HR]; [by rewrite H1|].
  destruct (__init__ e tolerance lims) as [self|] eqn:Hinit; [|done].
  apply init_ok in Hinit as (_ & HR' & _). congruence.
Qed.

Lemma init_rejects_witness :
  __init__ (Symbol "y") None None = Raise (ValueError invalid_symbols_message) ∧
  __init__ (Integer 1) None None = Raise (ValueError missing_r_message).
Proof.
  split.
  - apply (proj1 (init_rejects (Symbol "y") None None)).
    exists "y". split; [simpl; by apply elem_of_singleton_2|].
    intros [Hy|Hy]%elem_of_union; apply elem_of_singleton in Hy; discriminate.
  - apply (proj1 (proj2 (init_rejects (Integer 1) None None))); [|reflexivity].
    simpl. apply empty_subseteq.
Defined.

(** C7: an accepted expression without [eps] is stored with [eps*r]
    substituted for [r]; one with [eps] is stored as given; the stored
    expression always contains [eps]. *)
Theorem init_stored_expression (e : Expr) (tolerance : option Expr)
    (lims : option (gmap (list nat) Expr)) (self : RBF) :
  __init__ e tolerance lims = Ok self →
  (has e _EPS = false →
     expr self = subs e _R (Mul (Symbol _EPS) (Symbol _R))) ∧
  (has e _EPS = true → expr self = e) ∧
  has (expr self) _EPS = true.
Proof.
  intros Hinit. apply init_ok in Hinit as (_ & HR & He & _).
  rewrite He. destruct (has e _EPS) eqn:Heps.
  - done.
  - split; [done|]. split; [done|]. by apply has_subs.
Qed.

Lemma init_stored_expression_witness :
  expr (mk_RBF (Mul (Symbol "eps") (Symbol "r")) None ∅ ∅)
    = subs (Symbol "r") _R (Mul (Symbol _EPS) (Symbol _R)).
Proof.
  apply (proj1 (init_stored_expression (Symbol "r") None None
                  (mk_RBF (Mul (Symbol "eps") (Symbol "r")) None ∅ ∅) eq_refl)).
  reflexivity.
Defined.

(* ================================================================== *)
(** * Running the methods *)

Lemma state_eta st : {| self := self st; trace := trace st |} = st.
Proof. by destruct st. Qed.

Section Runs.
Context `{SymbolicEngine}.

Lemma differentiate_run pairs : ∀ e st,
  differentiate e pairs st
  = ({| self := self st; trace := trace st ++ diff_events e pairs |},
     Ok (differentiated e pairs)).
Proof.
  induction pairs as [|[xi order] rest IH]; intros e st; simpl.
  - by rewrite app_nil_r, state_eta.
  - destruct (decide (order = 0)); [apply IH|].
    unfold mbind, M_bind, emit. rewrite IH. simpl.
    by rewrite <- app_assoc.
Qed.

Lemma take_limits_run pairs : ∀ e st,
  take_limits e pairs st
  = ({| self := self st; trace := trace st ++ limit_events e pairs |},
     Ok (iterated_limit e pairs)).
Proof.
  induction pairs as [|[xi ci] rest IH]; intros e st; simpl.
  - by rewrite app_nil_r, state_eta.
  - unfold mbind, M_bind, emit. rewrite IH. simpl.
    by rewrite <- app_assoc.
Qed.

(** [add_diff_to_cache] always returns; it stores [compiled] under [diff]
    and makes the calls [compile_events]. *)
Lemma add_diff_to_cache_run diff st :
  add_diff_to_cache diff st
  = ({| self := set_cache (self st)
                  (<[diff := compiled (self st) diff]> (cache (self st)));
        trace := trace st ++ compile_events (self st) diff |},
     Ok ()).
Proof.
  unfold add_diff_to_cache, compiled, compile_events, compiled_expr, limit_value,
    diff_expr, args_of, r_sym_of, x_sym_of, c_sym_of.
  unfold mbind, M_bind, lift, get_self. simpl.
  rewrite differentiate_run. simpl.
  destruct (tol (self st)) as [t|]; simpl.
  - destruct (limits (self st) !! diff) as [lim|]; simpl.
    + unfold put_self, set_cache. simpl. by rewrite <- !app_assoc.
    + rewrite take_limits_run. unfold put_self, set_cache. simpl.
      by rewrite <- !app_assoc.
  - unfold put_self, set_cache. simpl. by rewrite <- !app_assoc.
Qed.

End Runs.

(* ================================================================== *)
(** * Shape checks *)

Lemma assert_shape_rank {A} `{Shaped A} (a : A) pattern label :
  length (np_shape a) ≠ length pattern →
  _assert_shape a pattern label
  = Raise (ValueError (rank_message label (length (np_shape a)) (length pattern))).
Proof.
  intros Hlen. unfold _assert_shape.
  by destruct (Nat.eqb_spec (length (np_shape a)) (length pattern)).
Qed.

(** [_assert_shape(x,(None,None),'x')] *)
Lemma assert_shape_any2 (a : ndarray) label :
  _assert_shape a [None; None] label
  = if decide (length (shape a) = 2) then Ok ()
    else Raise (ValueError (rank_message label (length (shape a)) 2)).
Proof.
  case_decide as Hlen.
  - unfold _assert_shape, np_shape, ndarray_shaped.
    destruct (shape a) as [|n [|d [|]]]; by simplify_eq/=.
  - by apply (assert_shape_rank a [None; None]).
Qed.

(** [_assert_shape(c,(None,d),'c')] on a rank-2 array *)
Lemma assert_shape_second (a : ndarray) d label m d' :
  shape a = [m; d'] →
  _assert_shape a [None; Some d] label
  = if decide (d' = d) then Ok ()
    else Raise (ValueError (axis_message 1 label d' d)).
Proof.
  intros Hsh. unfold _assert_shape, np_shape, ndarray_shaped. rewrite Hsh. simpl.
  destruct (Nat.eqb_spec d' d); by case_decide.
Qed.

(** [_assert_shape(eps,(m,),'eps')] on a rank-1 array *)
Lemma assert_shape_first (a : ndarray) m label l :
  shape a = [l] →
  _assert_shape a [Some m] label
  = if decide (l = m) then Ok ()
    else Raise (ValueError (axis_message 0 label l m)).
Proof.
  intros Hsh. unfold _assert_shape, np_shape, ndarray_shaped. rewrite Hsh. simpl.
  destruct (Nat.eqb_spec l m); by case_decide.
Qed.

(** [_assert_shape(diff,(d,),'diff')] on a tuple of integers *)
Lemma assert_shape_tuple (t : list nat) d label :
  _assert_shape t [Some d] label
  = if decide (length t = d) then Ok ()
    else Raise (ValueError (axis_message 0 label (length t) d)).
Proof.
  unfold _assert_shape, np_shape, tuple_shaped. simpl.
  destruct (Nat.eqb_spec (length t) d); by case_decide.
Qed.

(** [_assert_shape] raises nothing but [ValueError]. *)
Lemma check_axes_error pairs label : ∀ axis e,
  check_axes axis pairs label = Raise e → ∃ msg, e = ValueError msg.
Proof.
  induction pairs as [|[i [j|]] rest IH]; intros axis e; simpl; [done|..].
  - destruct (negb (i =? j)); [|by apply IH]. intros [= <-]. eauto.
  - apply IH.
Qed.

Lemma assert_shape_error {A} `{Shaped A} (a : A) pattern label e :
  _assert_shape a pattern label = Raise e → ∃ msg, e = ValueError msg.
Proof.
  unfold _assert_shape. destruct (negb _).
  - intros [= <-]. eauto.
  - apply check_axes_error.
Qed.

Lemma shape_checks_error x c eps diff e :
  shape_checks x c eps diff = Raise e → ∃ msg, e = ValueError msg.
Proof.
  unfold shape_checks, mbind, result_bind.
  destruct (_assert_shape x _ _) eqn:Hx;
    [|intros [= <-]; exact (assert_shape_error _ _ _ _ Hx)].
  destruct (_assert_shape c _ _) eqn:Hc;
    [|intros [= <-]; exact (assert_shape_error _ _ _ _ Hc)].
  destruct (_assert_shape (eps_array c eps) _ _) eqn:He;
    [|intros [= <-]; exact (assert_shape_error _ _ _ _ He)].
  apply assert_shape_error.
Qed.

(** What the checks establish. *)
Lemma shape_checks_ok x c eps diff :
  shape_checks x c eps diff = Ok () →
  ∃ N D M, shape x = [N; D] ∧ shape c = [M; D]
           ∧ shape (eps_array c eps) = [M] ∧ length (diff_key x diff) = D.
Proof.
  unfold shape_checks, mbind, result_bind.
  rewrite assert_shape_any2. case_decide as Hx; [|done].
  destruct (shape x) as [|N [|D [|]]] eqn:Hshx; try done.
  unfold shape_at at 1 3. rewrite Hshx. simpl.
  destruct (_assert_shape c _ _) eqn:Hc; [|done].
  destruct (_assert_shape (eps_array c eps) _ _) eqn:He; [|done].
  intros Hd. exists N, D.
  assert (Hrc : length (shape c) = 2).
  { destruct (decide (length (shape c) = 2)) as [|Hne]; [done|].
    by rewrite (assert_shape_rank c [None; Some D]) in Hc. }
  destruct (shape c) as [|M [|D' [|]]] eqn:Hshc; try done.
  rewrite (assert_shape_second c D "c" M D' Hshc) in Hc.
  case_decide; [subst D'|done].
  unfold shape_at in He. rewrite Hshc in He. cbn [nth] in He.
  exists M. split; [done|]. split; [done|].
  assert (Hre : length (shape (eps_array c eps)) = 1).
  { destruct (decide (length (shape (eps_array c eps)) = 1)) as [|Hne]; [done|].
    by rewrite (assert_shape_rank (eps_array c eps) [Some M]) in He. }
  destruct (shape (eps_array c eps)) as [|L [|]] eqn:Hshe; try done.
  rewrite (assert_shape_first (eps_array c eps) M "eps" L Hshe) in He.
  case_decide; [subst L|done]. split; [done|].
  rewrite assert_shape_tuple in Hd. by case_decide.
Qed.

(** The checks pass on arguments of the documented shapes. *)
Lemma shape_checks_valid x c eps diff N D M :
  shape x = [N; D] → shape c = [M; D] → shape (eps_array c eps) = [M] →
  length (diff_key x diff) = D →
  shape_checks x c eps diff = Ok ().
Proof.
  intros Hx Hc He Hd. unfold shape_checks, mbind, result_bind.
  rewrite assert_shape_any2, Hx. simpl.
  unfold shape_at. rewrite Hx, Hc. simpl.
  rewrite (assert_shape_second c D "c" M D Hc). rewrite decide_True by done.
  rewrite (assert_shape_first (eps_array c eps) M "eps" M He).
  rewrite decide_True by done.
  rewrite assert_shape_tuple. by rewrite decide_True.
Qed.

(* ================================================================== *)
(** * What a call does *)

(** An empty cache satisfies both invariants. *)
Lemma empty_cache_inv `{SymbolicEngine} self0 : cache self0 = ∅ → cache_inv self0.
Proof. intros Hc k f. by rewrite Hc, lookup_empty. Qed.

Lemma empty_cache_arity self0 : cache self0 = ∅ → cache_arity self0.
Proof. intros Hc k f. by rewrite Hc, lookup_empty. Qed.

Section Calls.
Context `{SymbolicEngine} `{Libm}.

(** [__call__] in one equation: a failed check leaves the state as it was;
    a hit calls the cached function; a miss compiles, stores and calls. *)
Lemma call_unfold x c eps diff st :
  __call__ x c eps diff st
  = match shape_checks x c eps diff with
    | Raise e => (st, Raise e)
    | Ok _ =>
        match cache (self st) !! diff_key x diff with
        | Some func => (st, ufunc_call func (call_args x c eps))
        | None =>
            (after_compile st (diff_key x diff),
             ufunc_call (compiled (self st) (diff_key x diff)) (call_args x c eps))
        end
    end.
Proof.
  unfold __call__, shape_checks, call_args, after_compile.
  fold (eps_array c eps). fold (diff_key x diff).
  unfold mbind, M_bind, result_bind, lift, get_self.
  destruct (_assert_shape x _ _); [|done].
  destruct (_assert_shape c _ _); [|done].
  destruct (_assert_shape (eps_array c eps) _ _); [|done].
  destruct (_assert_shape (diff_key x diff) _ _); [|done].
  destruct (cache (self st) !! diff_key x diff) as [func|] eqn:Hhit.
  - simpl. by rewrite Hhit.
  - rewrite add_diff_to_cache_run. simpl. by rewrite lookup_insert_eq.
Qed.

(** The fields a call can change: the cache and nothing else. *)
Lemma call_frame x c eps diff st :
  let st' := (__call__ x c eps diff st).1 in
  expr (self st') = expr (self st) ∧ tol (self st') = tol (self st)
  ∧ limits (self st') = limits (self st).
Proof.
  rewrite call_unfold.
  destruct (shape_checks x c eps diff); [|done].
  by destruct (cache (self st) !! diff_key x diff).
Qed.

(** A compiled function depends on the expression, tolerance and limits
    only. *)
Lemma compiled_ext self1 self2 key :
  expr self1 = expr self2 → tol self1 = tol self2 → limits self1 = limits self2 →
  compiled self1 key = compiled self2 key.
Proof.
  intros He Ht Hl.
  unfold compiled, compiled_expr, limit_value, diff_expr. by rewrite He, Ht, Hl.
Qed.

(** The cache invariant holds after construction and after every call. *)
Lemma init_cache_inv e tolerance lims self0 :
  __init__ e tolerance lims = Ok self0 → cache_inv self0.
Proof.
  intros (_ & _ & _ & _ & Hc & _)%init_ok k f. by rewrite Hc, lookup_empty.
Qed.

Lemma call_cache_inv x c eps diff st :
  cache_inv (self st) → cache_inv (self (__call__ x c eps diff st).1).
Proof.
  intros Hinv. rewrite call_unfold.
  destruct (shape_checks x c eps diff); [|done].
  destruct (cache (self st) !! diff_key x diff) eqn:Hhit; [done|].
  intros k f. simpl. rewrite lookup_insert. case_decide as Hk.
  - intros [= <-]. subst k. by apply compiled_ext.
  - intros Hf. rewrite (Hinv k f Hf). by apply compiled_ext.
Qed.

Lemma cache_inv_arity self0 : cache_inv self0 → cache_arity self0.
Proof.
  intros Hinv k f Hf. rewrite (Hinv k f Hf). unfold compiled, ufuncify.
  cbn [ufunc_args]. unfold args_of, x_sym_of, c_sym_of, symbols.
  by rewrite !length_app, !length_fmap, !length_seq.
Qed.

Lemma call_cache_arity x c eps diff st :
  cache_arity (self st) → cache_arity (self (__call__ x c eps diff st).1).
Proof.
  intros Har. rewrite call_unfold.
  destruct (shape_checks x c eps diff); [|done].
  destruct (cache (self st) !! diff_key x diff) eqn:Hhit; [done|].
  intros k f. simpl. rewrite lookup_insert. case_decide as Hk.
  - intros [= <-]. subst k. unfold compiled, ufuncify. cbn [ufunc_args].
    unfold args_of, x_sym_of, c_sym_of, symbols.
    by rewrite !length_app, !length_fmap, !length_seq.
  - apply Har.
Qed.

(** After a call that returned, the function it called is cached under
    its key, and a call under that key is a check of shapes and a call of
    that function: the state stays as it is. *)
Lemma call_again x c eps diff st :
  is_ok (__call__ x c eps diff st).2 = true →
  ∃ func,
    cache (self (__call__ x c eps diff st).1) !! diff_key x diff = Some func
    ∧ ∀ x2 c2 eps2 diff2, diff_key x2 diff2 = diff_key x diff →
        __call__ x2 c2 eps2 diff2 (__call__ x c eps diff st).1
        = ((__call__ x c eps diff st).1,
           match shape_checks x2 c2 eps2 diff2 with
           | Raise e => Raise e
           | Ok _ => ufunc_call func (call_args x2 c2 eps2)
           end).
Proof.
  rewrite call_unfold.
  destruct (shape_checks x c eps diff) as [[]|e] eqn:Hchk; simpl; [|done].
  destruct (cache (self st) !! diff_key x diff) as [func|] eqn:Hhit; simpl;
    intros _.
  - exists func. split; [done|]. intros x2 c2 eps2 diff2 Hkey.
    rewrite call_unfold, Hkey, Hhit.
    by destruct (shape_checks x2 c2 eps2 diff2).
  - eexists. split; [apply lookup_insert_eq|]. intros x2 c2 eps2 diff2 Hkey.
    rewrite call_unfold, Hkey. simpl. rewrite lookup_insert_eq.
    by destruct (shape_checks x2 c2 eps2 diff2).
Qed.

(** A call whose checks pass calls a function of the right arity. *)
Lemma call_calls x c eps diff st :
  cache_arity (self st) → shape_checks x c eps diff = Ok () →
  ∃ func, (__call__ x c eps diff st).2 = ufunc_call func (call_args x c eps)
          ∧ length (ufunc_args func)
            = length (diff_key x diff) + (length (diff_key x diff) + 1).
Proof.
  intros Har Hchk. rewrite call_unfold, Hchk.
  destruct (cache (self st) !! diff_key x diff) as [func|] eqn:Hhit.
  - exists func. split; [done|]. by apply Har.
  - eexists. split; [done|]. unfold compiled, ufuncify. cbn [ufunc_args].
    unfold args_of, x_sym_of, c_sym_of, symbols.
    by rewrite !length_app, !length_fmap, !length_seq.
Qed.

End Calls.

(* ================================================================== *)
(** * The claims about compilation and calls *)

Lemma diff_events_no_limit `{SymbolicEngine} pairs : ∀ e,
  Forall (λ ev, is_limit_event ev = false) (diff_events e pairs).
Proof.
  induction pairs as [|[xi order] rest IH]; intros e; simpl; [done|].
  destruct (decide (order = 0)); [done|]. by constructor.
Qed.

(** C1: with a tolerance set, the limiting value is the entry of the limits
    table when there is one and otherwise the limit taken symbolically one
    axis after the other, the table being consulted first; the compiled
    expression is the two-branch [Piecewise] whose value is the limiting
    value where the radial distance is below the tolerance and the
    differentiated expression elsewhere.  With no tolerance the compiled
    expression is the differentiated one and neither the table nor a limit
    is touched. *)
Theorem add_diff_to_cache_compiles `{SymbolicEngine} (diff : list nat) (st : state) :
  let x_sym := symbols "x" (length diff) in
  let c_sym := symbols "c" (length diff) in
  let r_sym := radial_distance x_sym c_sym in
  let start := subs (expr (self st)) _R r_sym in
  let dexpr := differentiated start (zip x_sym diff) in
  let args := x_sym ++ c_sym ++ [_EPS] in
  ∃ body events,
    add_diff_to_cache diff st
    = ({| self := set_cache (self st)
                    (<[diff := ufuncify args body]> (cache (self st)));
          trace := trace st ++ events |}, Ok ())
    ∧ match tol (self st) with
      | None =>
          body = dexpr
          ∧ events = diff_events start (zip x_sym diff) ++ [EvUfuncify args body]
          ∧ Forall (λ ev, is_limit_event ev = false) events
      | Some t =>
          ∃ lim,
            body = Piecewise lim (Lt r_sym t) dexpr BooleanTrue
            ∧ match limits (self st) !! diff with
              | Some l =>
                  lim = l
                  ∧ events = diff_events start (zip x_sym diff)
                             ++ [EvLimitsLookup diff; EvUfuncify args body]
              | None =>
                  lim = iterated_limit dexpr (zip x_sym c_sym)
                  ∧ events = diff_events start (zip x_sym diff)
                             ++ EvLimitsLookup diff
                                :: limit_events dexpr (zip x_sym c_sym)
                             ++ [EvUfuncify args body]
              end
            ∧ ∀ (libm : Libm) env,
                eval env body
                = if (eval env r_sym <? eval env t)%float
                  then eval env lim else eval env dexpr
      end.
Proof.
  intros x_sym c_sym r_sym start dexpr args.
  exists (compiled_expr (self st) diff), (compile_events (self st) diff).
  split; [apply add_diff_to_cache_run|].
  unfold compile_events, compiled_expr, limit_value, diff_expr, args_of,
    r_sym_of, x_sym_of, c_sym_of.
  fold x_sym c_sym. fold r_sym. fold start. fold dexpr. fold args.
  destruct (tol (self st)) as [t|].
  - destruct (limits (self st) !! diff) as [l|].
    + exists l. by repeat split.
    + exists (iterated_limit dexpr (zip x_sym c_sym)). by repeat split.
  - repeat split. apply Forall_app. split; [apply diff_events_no_limit|].
    by repeat constructor.
Qed.

(** In two dimensions the symbolic limit is the limit in [x1] of the limit
    in [x0]. *)
Lemma iterated_limit_two_axes `{SymbolicEngine} e :
  iterated_limit e (zip (symbols "x" 2) (symbols "c" 2))
  = sym_limit (sym_limit e "x0" (Symbol "c0")) "x1" (Symbol "c1").
Proof. reflexivity. Qed.

Section CallClaims.
Context `{SymbolicEngine} `{Libm}.

(** C5 (amended): a call whose [x] is not of rank 2 fails with the error
    that names the label, the rank found and the rank expected; a call
    whose [c] has a second axis different from that of [x], or whose array
    [eps] has a length different from the number of centres, fails with the
    error that names the axis, the label, the length found and the length
    expected.  The state after the failed call is the state before it:
    nothing was compiled or cached and nothing is returned. *)
Theorem call_shape_errors (x c : ndarray) (eps : eps_arg) (diff : option pyseq)
    (st : state) :
  (length (shape x) ≠ 2 →
     __call__ x c eps diff st
     = (st, Raise (ValueError (rank_message "x" (length (shape x)) 2))))
  ∧ (∀ N D M D', shape x = [N; D] → shape c = [M; D'] → D' ≠ D →
     __call__ x c eps diff st
     = (st, Raise (ValueError (axis_message 1 "c" D' D))))
  ∧ (∀ N D M a L, shape x = [N; D] → shape c = [M; D] →
     eps = EpsArray a → shape a = [L] → L ≠ M →
     __call__ x c eps diff st
     = (st, Raise (ValueError (axis_message 0 "eps" L M)))).
Proof.
  repeat split.
  - intros Hx. rewrite call_unfold. unfold shape_checks, mbind, result_bind.
    by rewrite assert_shape_any2, decide_False.
  - intros N D M D' Hx Hc Hne. rewrite call_unfold.
    unfold shape_checks, mbind, result_bind.
    rewrite assert_shape_any2, Hx. simpl. unfold shape_at at 1. rewrite Hx.
    cbn [nth]. rewrite (assert_shape_second c D "c" M D' Hc).
    by rewrite decide_False.
  - intros N D M a L Hx Hc -> Ha Hne. rewrite call_unfold.
    unfold shape_checks, mbind, result_bind.
    rewrite assert_shape_any2, Hx. simpl. unfold shape_at at 1 2. rewrite Hx, Hc.
    cbn [nth]. rewrite (assert_shape_second c D "c" M D Hc).
    rewrite decide_True by done. simpl.
    rewrite (assert_shape_first a M "eps" L Ha). by rewrite decide_False.
Qed.

(** C9: an explicit [diff] whose length is not the number of columns of
    [x] makes the call fail with a shape error, whatever the cache holds;
    the state is left as it was.  When [c] and [eps] are well shaped the
    error is the one of the [diff] check. *)
Theorem call_diff_length_error (x c : ndarray) (eps : eps_arg) (d : pyseq)
    (st : state) (N D : nat) :
  shape x = [N; D] → length (tuple d) ≠ D →
  (∃ msg, __call__ x c eps (Some d) st = (st, Raise (ValueError msg)))
  ∧ (∀ M, shape c = [M; D] → shape (eps_array c eps) = [M] →
       __call__ x c eps (Some d) st
       = (st, Raise (ValueError (axis_message 0 "diff" (length (tuple d)) D)))).
Proof.
  intros Hx Hlen. split.
  - rewrite call_unfold.
    destruct (shape_checks x c eps (Some d)) as [[]|e] eqn:Hchk.
    + apply shape_checks_ok in Hchk as (N' & D' & M & Hx' & _ & _ & Hd).
      simpl in Hd. congruence.
    + apply shape_checks_error in Hchk as [msg ->]. eauto.
  - intros M Hc He. rewrite call_unfold.
    unfold shape_checks, mbind, result_bind.
    rewrite assert_shape_any2, Hx. simpl. unfold shape_at. rewrite Hx, Hc.
    cbn [nth]. rewrite (assert_shape_second c D "c" M D Hc).
    rewrite decide_True by done. simpl.
    rewrite (assert_shape_first (eps_array c eps) M "eps" M He).
    rewrite decide_True by done. simpl.
    rewrite assert_shape_tuple. by rewrite decide_False.
Qed.

(** C6: a call leaves every cached function in place; it adds an entry
    only under the requested key and only when that key was absent; and
    after a call that returned, any further call under the same key leaves
    object and trace untouched (nothing is differentiated, no limit is
    taken, nothing is compiled) and, when its shapes are right, returns
    what the cached function returns. *)
Theorem call_cache_monotone (x c : ndarray) (eps : eps_arg) (diff : option pyseq)
    (st : state) :
  let st1 := (__call__ x c eps diff st).1 in
  cache (self st) ⊆ cache (self st1)
  ∧ (is_Some (cache (self st) !! diff_key x diff) → st1 = st)
  ∧ (cache (self st1) ≠ cache (self st) →
       cache (self st) !! diff_key x diff = None
       ∧ cache (self st1)
         = <[diff_key x diff := compiled (self st) (diff_key x diff)]>
             (cache (self st)))
  ∧ (is_ok (__call__ x c eps diff st).2 = true →
     ∀ x2 c2 eps2 diff2, diff_key x2 diff2 = diff_key x diff →
       (__call__ x2 c2 eps2 diff2 st1).1 = st1
       ∧ ∃ func, cache (self st1) !! diff_key x diff = Some func
           ∧ (shape_checks x2 c2 eps2 diff2 = Ok () →
              (__call__ x2 c2 eps2 diff2 st1).2
              = ufunc_call func (call_args x2 c2 eps2))).
Proof.
  intros st1. split; [|split; [|split]].
  - subst st1. rewrite call_unfold.
    destruct (shape_checks x c eps diff); [|done].
    destruct (cache (self st) !! diff_key x diff) eqn:Hhit; [done|].
    by apply insert_subseteq.
  - intros [func Hhit]. subst st1. rewrite call_unfold, Hhit.
    by destruct (shape_checks x c eps diff).
  - subst st1. rewrite call_unfold.
    destruct (shape_checks x c eps diff); [|done].
    by destruct (cache (self st) !! diff_key x diff) eqn:Hhit.
  - intros Hok x2 c2 eps2 diff2 Hkey.
    destruct (call_again x c eps diff st Hok) as (func & Hfunc & Hagain).
    fold st1 in Hfunc, Hagain. rewrite (Hagain x2 c2 eps2 diff2 Hkey).
    split; [done|]. exists func. split; [done|]. by intros ->.
Qed.

(** C10: a list and a tuple with the same entries are the same call: same
    result, same state.  After one of them has returned, the cache holds
    one entry for the common key and the other form of the call adds
    nothing and compiles nothing. *)
Theorem call_list_tuple (x c : ndarray) (eps : eps_arg) (items : list nat)
    (st : state) :
  __call__ x c eps (Some (PyList items)) st
  = __call__ x c eps (Some (PyTuple items)) st
  ∧ let st1 := (__call__ x c eps (Some (PyList items)) st).1 in
    (is_ok (__call__ x c eps (Some (PyList items)) st).2 = true →
     is_Some (cache (self st1) !! items)
     ∧ dom (cache (self st1)) = {[ items ]} ∪ dom (cache (self st))
     ∧ ∀ x2 c2 eps2, (__call__ x2 c2 eps2 (Some (PyTuple items)) st1).1 = st1).
Proof.
  split; [done|]. intros st1 Hok.
  destruct (call_again x c eps (Some (PyList items)) st Hok)
    as (func & Hfunc & Hagain).
  fold st1 in Hfunc, Hagain. simpl in Hfunc. split; [by eexists|]. split.
  - subst st1. revert Hok Hfunc. rewrite call_unfold. simpl.
    destruct (shape_checks x c eps (Some (PyList items))); [|done].
    destruct (cache (self st) !! items) eqn:Hhit; simpl.
    + intros _ _. apply elem_of_dom_2 in Hhit. symmetry.
      apply subseteq_union_1_L. by apply singleton_subseteq_l.
    + intros _ _. by rewrite dom_insert_L.
  - intros x2 c2 eps2.
    by rewrite (Hagain x2 c2 eps2 (Some (PyTuple items)) eq_refl).
Qed.

End CallClaims.

(* ================================================================== *)
(** * The caller's arrays *)

Lemma W_bind_run {A B} (m : W A) (f : A → W B) w w' a :
  m w = (w', Ok a) → (m ≫= f) w = f a w'.
Proof. unfold mbind, W_bind. by intros ->. Qed.

Lemma W_bind_raise {A B} (m : W A) (f : A → W B) w w' e :
  m w = (w', Raise e) → (m ≫= f) w = (w', Raise e).
Proof. unfold mbind, W_bind. by intros ->. Qed.

Lemma fetch_run w a v : value_of w a = Some v → fetch a w = (w, Ok v).
Proof. unfold fetch. by intros ->. Qed.

Lemma fetch_unbound w a :
  value_of w a = None → ∃ e, fetch a w = (w, Raise e).
Proof. unfold fetch. intros ->. eauto. Qed.

(** An allocation leaves every array object with the value it had. *)
Lemma value_of_grow st h extra a v :
  value_of {| object := st; heap := h |} a = Some v →
  ∀ st', value_of {| object := st'; heap := h ++ extra |} a = Some v.
Proof.
  unfold value_of. cbn [heap]. destruct (h !! base a) eqn:Hb; [|done].
  intros Hv st'. by rewrite (lookup_app_l_Some _ _ _ _ Hb).
Qed.

Lemma value_of_new st h a :
  value_of {| object := st; heap := h ++ [a] |} (whole (length h)) = Some a.
Proof. unfold value_of, whole. cbn. by rewrite list_lookup_middle. Qed.

Lemma value_of_view w a f : value_of w (view a f) = f <$> value_of w a.
Proof. unfold value_of, view. cbn. by destruct (heap w !! base a). Qed.

Lemma fetch_all_run w args vals :
  Forall2 (λ a v, value_of w a = Some v) args vals →
  fetch_all args w = (w, Ok vals).
Proof.
  induction 1 as [|a v args vals Ha _ IH]; [done|].
  cbn [fetch_all].
  rewrite (W_bind_run _ _ _ _ _ (fetch_run _ _ _ Ha)).
  by rewrite (W_bind_run _ _ _ _ _ IH).
Qed.

Lemma nth_seq_list {A} (l : list A) d :
  (λ k, nth k l d) <$> seq 0 (length l) = l.
Proof.
  apply list_eq. intros i. rewrite list_lookup_fmap.
  destruct (decide (i < length l)) as [Hlt|Hge].
  - rewrite lookup_seq_lt by done. cbn.
    destruct (lookup_lt_is_Some_2 l i Hlt) as [y Hy]. rewrite Hy. f_equal.
    by apply nth_lookup_Some with (d := d) in Hy.
  - rewrite lookup_seq_ge by lia. cbn. symmetry. apply lookup_ge_None_2. lia.
Qed.

Section CallerArrays.
Context `{SymbolicEngine} `{Libm}.

(** The views [tuple(a)] yields hold the sub-arrays of [a]. *)
Lemma tuple_views_run w a v :
  value_of w a = Some v →
  ∃ views, ByReference.tuple_views a w = (w, Ok views)
           ∧ Forall2 (λ a' v', value_of w a' = Some v') views (np_tuple v).
Proof.
  intros Hv. unfold ByReference.tuple_views.
  rewrite (W_bind_run _ _ _ _ _ (fetch_run _ _ _ Hv)).
  eexists. split; [done|].
  rewrite <- (nth_seq_list (np_tuple v) no_array) at 2.
  apply Forall2_fmap, Forall_Forall2_diag, Forall_forall. intros k _.
  by rewrite value_of_view, Hv.
Qed.

(** The end of a call: the views are made, the cached function is looked
    up and called, and its result is a new array. *)
Lemma call_tail_run st2 h2 x c epsobj xa ca ev key func :
  value_of {| object := st2; heap := h2 |} x = Some xa →
  value_of {| object := st2; heap := h2 |} c = Some ca →
  value_of {| object := st2; heap := h2 |} epsobj = Some ev →
  cache (self st2) !! key = Some func →
  (xs ← ByReference.tuple_views (view x (λ a, newaxis 2 (np_T a)));
   cs ← ByReference.tuple_views (view c (λ a, newaxis 1 (np_T a)));
   self ← on_object get_self;
   match cache self !! key with
   | Some func => ByReference.call_ufunc func (xs ++ cs ++ [epsobj])
   | None => lift_result (Raise (KeyError "diff"))
   end) {| object := st2; heap := h2 |}
  = match ufunc_call func (np_tuple (newaxis 2 (np_T xa))
                           ++ np_tuple (newaxis 1 (np_T ca)) ++ [ev]) with
    | Ok out => ({| object := st2; heap := h2 ++ [out] |}, Ok (whole (length h2)))
    | Raise err => ({| object := st2; heap := h2 |}, Raise err)
    end.
Proof.
  intros Hx Hc He Hhit.
  destruct (tuple_views_run {| object := st2; heap := h2 |}
              (view x (λ a, newaxis 2 (np_T a))) (newaxis 2 (np_T xa)))
    as (xs & Hxs & Hxv); [by rewrite value_of_view, Hx|].
  destruct (tuple_views_run {| object := st2; heap := h2 |}
              (view c (λ a, newaxis 1 (np_T a))) (newaxis 1 (np_T ca)))
    as (cs & Hcs & Hcv); [by rewrite value_of_view, Hc|].
  rewrite (W_bind_run _ _ _ _ _ Hxs), (W_bind_run _ _ _ _ _ Hcs).
  rewrite (W_bind_run (on_object get_self) _ {| object := st2; heap := h2 |}
             {| object := st2; heap := h2 |} (self st2) eq_refl).
  rewrite Hhit. unfold ByReference.call_ufunc.
  rewrite (W_bind_run _ _ _ _ _
             (fetch_all_run _ (xs ++ cs ++ [epsobj])
                (np_tuple (newaxis 2 (np_T xa)) ++ np_tuple (newaxis 1 (np_T ca)) ++ [ev])
                ltac:(repeat (apply Forall2_app; [done|]); by constructor))).
  destruct (ufunc_call func _) as [out|err].
  - by rewrite (W_bind_run (lift_result (Ok out)) _ _ _ out eq_refl).
  - by rewrite (W_bind_raise (lift_result (Raise err)) _ _ _ err eq_refl).
Qed.

(** [ByReference.__call__] against [__call__]: on bound arguments it leaves
    the object as [__call__] on their values leaves it, adds the array made
    of a scalar [eps] and the result to the heap, and returns a reference to
    the result; it raises what [__call__] raises. *)
Lemma call_by_reference_run x c eps diff w xa ca e :
  value_of w x = Some xa → value_of w c = Some ca → eps_value w eps = Some e →
  ∃ temps,
    (ByReference.__call__ x c eps diff w).1
    = {| object := (__call__ xa ca e diff (object w)).1;
         heap := (heap w ++ temps)
                 ++ match (__call__ xa ca e diff (object w)).2 with
                    | Ok out => [out]
                    | Raise _ => []
                    end |}
    ∧ (ByReference.__call__ x c eps diff w).2
      = match (__call__ xa ca e diff (object w)).2 with
        | Ok _ => Ok (whole (length (heap w ++ temps)))
        | Raise err => Raise err
        end.
Proof.
  intros Hx Hc He. destruct w as [st h]. cbn [object heap] in *.
  pose proof (call_unfold xa ca e diff st) as Hval. unfold shape_checks in Hval.
  unfold ByReference.__call__, ByReference.np_asarray.
  rewrite (W_bind_run (mret x) _ _ _ x eq_refl).
  rewrite (W_bind_run _ _ _ _ _ (fetch_run _ _ _ Hx)).
  destruct (_assert_shape xa [None; None] "x") as [[]|err] eqn:H1.
  2:{ rewrite (W_bind_raise (lift_result (Raise err)) _ _ _ err eq_refl).
      rewrite Hval. exists []. cbn. by rewrite !app_nil_r. }
  rewrite (W_bind_run (lift_result (Ok ())) _ _ _ () eq_refl).
  rewrite (W_bind_run (mret c) _ _ _ c eq_refl).
  rewrite (W_bind_run _ _ _ _ _ (fetch_run _ _ _ Hc)).
  destruct (_assert_shape ca [None; Some (shape_at xa 1)] "c") as [[]|err] eqn:H2.
  2:{ rewrite (W_bind_raise (lift_result (Raise err)) _ _ _ err eq_refl).
      rewrite Hval. exists []. cbn. by rewrite !app_nil_r. }
  rewrite (W_bind_run (lift_result (Ok ())) _ _ _ () eq_refl).
  assert (Heps : ∃ temps epsobj,
            match eps with
            | EpsValue v => allocate (np_full (shape_at ca 0) v)
            | EpsRef a => ByReference.np_asarray a
            end {| object := st; heap := h |}
            = ({| object := st; heap := h ++ temps |}, Ok epsobj)
            ∧ value_of {| object := st; heap := h ++ temps |} epsobj
              = Some (eps_array ca e)).
  { destruct eps as [v|a]; cbn in He.
    - injection He as <-. exists [np_full (shape_at ca 0) v], (whole (length h)).
      split; [done|]. apply value_of_new.
    - destruct (value_of {| object := st; heap := h |} a) as [ea|] eqn:Ha; [|done].
      injection He as <-. exists [], a. rewrite app_nil_r. by split. }
  destruct Heps as (temps & epsobj & Hstep & Hev).
  unfold ByReference.np_asarray in Hstep.
  rewrite (W_bind_run _ _ _ _ _ Hstep).
  rewrite (W_bind_run _ _ _ _ _ (fetch_run _ _ _ Hev)).
  exists temps.
  destruct (_assert_shape (eps_array ca e) [Some (shape_at ca 0)] "eps")
    as [[]|err] eqn:H3.
  2:{ rewrite (W_bind_raise (lift_result (Raise err)) _ _ _ err eq_refl).
      rewrite Hval. cbn. by rewrite !app_nil_r. }
  rewrite (W_bind_run (lift_result (Ok ())) _ _ _ () eq_refl).
  cbv zeta. fold (diff_key xa diff).
  destruct (_assert_shape (diff_key xa diff) [Some (shape_at xa 1)] "diff")
    as [[]|err] eqn:H4.
  2:{ rewrite (W_bind_raise (lift_result (Raise err)) _ _ _ err eq_refl).
      rewrite Hval. cbn. by rewrite !app_nil_r. }
  rewrite (W_bind_run (lift_result (Ok ())) _ _ _ () eq_refl).
  rewrite (W_bind_run (on_object get_self) _ {| object := st; heap := h ++ temps |}
             {| object := st; heap := h ++ temps |} (self st) eq_refl).
  cbn [mbind result_bind] in Hval. fold (call_args xa ca e) in Hval.
  pose proof (value_of_grow _ _ temps _ _ Hx) as Hx'.
  pose proof (value_of_grow _ _ temps _ _ Hc) as Hc'.
  destruct (cache (self st) !! diff_key xa diff) as [func|] eqn:Hhit.
  - rewrite (W_bind_run (mret ()) _ _ _ () eq_refl).
    rewrite (call_tail_run st _ x c epsobj xa ca (eps_array ca e) _ func);
      [|done|done|done|done].
    fold (call_args xa ca e). rewrite Hval. cbn [fst snd].
    destruct (ufunc_call func (call_args xa ca e)); [done|by rewrite app_nil_r].
  - assert (Hadd : on_object (add_diff_to_cache (diff_key xa diff))
                     {| object := st; heap := h ++ temps |}
                   = ({| object := after_compile st (diff_key xa diff);
                         heap := h ++ temps |}, Ok ())).
    { unfold on_object. cbn [object heap]. by rewrite add_diff_to_cache_run. }
    rewrite (W_bind_run _ _ _ _ _ Hadd).
    rewrite (call_tail_run _ _ x c epsobj xa ca (eps_array ca e) _
               (compiled (self st) (diff_key xa diff)));
      [|done|done| |by cbn; rewrite lookup_insert_eq].
    2:{ unfold value_of in *. by cbn [heap] in *. }
    fold (call_args xa ca e). rewrite Hval. cbn [fst snd].
    destruct (ufunc_call _ (call_args xa ca e)); [done|by rewrite app_nil_r].
Qed.

(** A call on an argument that is bound to no array raises at once. *)
Lemma call_by_reference_unbound x c eps diff w :
  value_of w x = None ∨ value_of w c = None ∨ eps_value w eps = None →
  (ByReference.__call__ x c eps diff w).1 = w
  ∧ is_ok (ByReference.__call__ x c eps diff w).2 = false.
Proof.
  intros Hun. unfold ByReference.__call__, ByReference.np_asarray.
  rewrite (W_bind_run (mret x) _ _ _ x eq_refl).
  destruct (value_of w x) as [xa|] eqn:Hx.
  2:{ destruct (fetch_unbound _ _ Hx) as [err Hf].
      by rewrite (W_bind_raise _ _ _ _ _ Hf). }
  rewrite (W_bind_run _ _ _ _ _ (fetch_run _ _ _ Hx)).
  destruct (_assert_shape xa [None; None] "x") as [[]|err].
  2:{ by rewrite (W_bind_raise (lift_result (Raise err)) _ _ _ err eq_refl). }
  rewrite (W_bind_run (lift_result (Ok ())) _ _ _ () eq_refl).
  rewrite (W_bind_run (mret c) _ _ _ c eq_refl).
  destruct (value_of w c) as [ca|] eqn:Hc.
  2:{ destruct (fetch_unbound _ _ Hc) as [err Hf].
      by rewrite (W_bind_raise _ _ _ _ _ Hf). }
  rewrite (W_bind_run _ _ _ _ _ (fetch_run _ _ _ Hc)).
  destruct (_assert_shape ca [None; Some (shape_at xa 1)] "c") as [[]|err].
  2:{ by rewrite (W_bind_raise (lift_result (Raise err)) _ _ _ err eq_refl). }
  rewrite (W_bind_run (lift_result (Ok ())) _ _ _ () eq_refl).
  destruct Hun as [Hun|[Hun|Hun]]; [done|done|].
  destruct eps as [v|a]; [done|]. cbn in Hun.
  destruct (value_of w a) as [ea|] eqn:Ha; [done|].
  rewrite (W_bind_run (mret a) _ _ _ a eq_refl).
  destruct (fetch_unbound _ _ Ha) as [err Hf].
  by rewrite (W_bind_raise _ _ _ _ _ Hf).
Qed.

Lemma value_of_prefix w w1 a :
  heap w `prefix_of` heap w1 → is_Some (value_of w a) →
  value_of w1 a = value_of w a.
Proof.
  intros [extra Hext] [v Hv]. rewrite Hv. destruct w as [st h], w1 as [st1 h1].
  cbn [heap] in Hext. subst h1. by apply (value_of_grow st).
Qed.

(** C8: a call, returning or not, leaves the expression, the tolerance and
    the limits of the object as they were.  Every statement of the body
    reads arrays or makes new ones and none writes to one: the arrays of
    the heap, the caller's [x], [c] and [eps] among them, hold after the
    call what they held before, and the array returned is a new one. *)
Theorem call_by_reference_frame (x c : pyarray) (eps : eps_ref)
    (diff : option pyseq) (w : world) :
  let w1 := (ByReference.__call__ x c eps diff w).1 in
  expr (self (object w1)) = expr (self (object w))
  ∧ tol (self (object w1)) = tol (self (object w))
  ∧ limits (self (object w1)) = limits (self (object w))
  ∧ heap w `prefix_of` heap w1
  ∧ value_of w1 x = value_of w x
  ∧ value_of w1 c = value_of w c
  ∧ match eps with
    | EpsRef a => value_of w1 a = value_of w a
    | EpsValue _ => True
    end
  ∧ ∀ out, (ByReference.__call__ x c eps diff w).2 = Ok out →
      heap w !! base out = None ∧ is_Some (heap w1 !! base out).
Proof.
  intros w1.
  destruct (value_of w x) as [xa|] eqn:Hx;
    [destruct (value_of w c) as [ca|] eqn:Hc;
       [destruct (eps_value w eps) as [e|] eqn:He|]|].
  2,3,4: destruct (call_by_reference_unbound x c eps diff w) as [Hw Hres];
    [auto|]; subst w1; rewrite Hw, Hx, ?Hc;
    (split_and!; try done;
       [by destruct eps|intros out Hout; by rewrite Hout in Hres]).
  destruct (call_by_reference_run x c eps diff w xa ca e Hx Hc He)
    as (temps & Hw & Hres).
  destruct (call_frame xa ca e diff (object w)) as (Hexpr & Htol & Hlim).
  assert (Hpre : heap w `prefix_of` heap w1).
  { subst w1. rewrite Hw. cbn [heap]. rewrite <- app_assoc. by apply prefix_app_r. }
  split; [by subst w1; rewrite Hw|]. split; [by subst w1; rewrite Hw|].
  split; [by subst w1; rewrite Hw|]. split; [done|].
  split; [rewrite <- Hx; apply value_of_prefix; by rewrite ?Hx|].
  split; [rewrite <- Hc; apply value_of_prefix; by rewrite ?Hc|].
  split.
  - destruct eps as [v|a]; [done|]. cbn in He.
    destruct (value_of w a) as [ea|] eqn:Ha; [|done].
    rewrite <- Ha. apply value_of_prefix; by rewrite ?Ha.
  - intros out Hout. rewrite Hout in Hres. subst w1. rewrite Hw. cbn [heap].
    destruct (__call__ xa ca e diff (object w)).2 as [o|err]; [|done].
    injection Hres as ->. cbn [base whole]. split.
    + apply lookup_ge_None_2. rewrite length_app. lia.
    + rewrite list_lookup_middle by done. by eexists.
Qed.

End CallerArrays.

(** The frame is a property of [__call__], not of the heap: [_replace_nan],
    run on the same heap, writes to its argument. *)
Lemma replace_nan_writes_heap :
  let w := {| object := new_state;
              heap := [{| shape := [1]; data := [nan] |}] |} in
  value_of (on_heap (_replace_nan 0) w).1 (whole 0) ≠ value_of w (whole 0).
Proof.
  intros w Heq.
  apply (f_equal (λ o, match o with
                       | Some a => forallb is_nan (data a)
                       | None => false
                       end)) in Heq.
  vm_compute in Heq. discriminate.
Qed.

(** A call on the sample arrays: the heap keeps the two arrays and gains
    the array made of the scalar [eps] and the result. *)
Lemma call_by_reference_sample :
  ∃ e out,
    @ByReference.__call__ textbook_engine small_libm (whole 0) (whole 1)
      (EpsValue 2) None {| object := new_state; heap := [sample_x; sample_c] |}
    = ({| object := (@__call__ textbook_engine small_libm sample_x sample_c
                       (EpsScalar 2) None new_state).1;
          heap := [sample_x; sample_c; e; out] |}, Ok (whole 3))
    ∧ shape e = [2] ∧ shape out = [3; 2].
Proof. do 2 eexists. split; [by vm_compute|]. done. Qed.




(* ================================================================== *)
(** * Arrays: the arguments of the compiled function *)

Lemma fmap_seq_shape (g : nat → ndarray) sh n :
  (∀ k, shape (g k) = sh) → ∀ start, shape <$> (g <$> seq start n) = replicate n sh.
Proof.
  intros Hg. induction n as [|n IH]; intros start; simpl; [done|].
  by rewrite Hg, IH.
Qed.

(** [tuple(x.T[:,:,None])] is [D] arrays of shape [(N,1)], and
    [tuple(c.T[:,None,:])] is [D] arrays of shape [(1,M)]. *)
Lemma x_args_shapes x N D :
  shape x = [N; D] →
  shape <$> np_tuple (newaxis 2 (np_T x)) = replicate D [N; 1].
Proof.
  intros Hx. unfold np_tuple, newaxis, np_T. rewrite Hx. simpl.
  by apply fmap_seq_shape.
Qed.

Lemma c_args_shapes c M D :
  shape c = [M; D] →
  shape <$> np_tuple (newaxis 1 (np_T c)) = replicate D [1; M].
Proof.
  intros Hc. unfold np_tuple, newaxis, np_T. rewrite Hc. simpl.
  by apply fmap_seq_shape.
Qed.

Lemma call_args_shapes x c eps N M D :
  shape x = [N; D] → shape c = [M; D] → shape (eps_array c eps) = [M] →
  shape <$> call_args x c eps = replicate D [N; 1] ++ replicate D [1; M] ++ [[M]].
Proof.
  intros Hx Hc He. unfold call_args.
  rewrite !fmap_app, (x_args_shapes x N D Hx), (c_args_shapes c M D Hc).
  simpl. by rewrite He.
Qed.

Lemma call_args_length x c eps N M D :
  shape x = [N; D] → shape c = [M; D] → shape (eps_array c eps) = [M] →
  length (call_args x c eps) = D + (D + 1).
Proof.
  intros Hx Hc He.
  rewrite <- (length_fmap shape), (call_args_shapes x c eps N M D) by done.
  by rewrite !length_app, !length_replicate.
Qed.

Lemma args_of_length key : length (args_of key) = length key + (length key + 1).
Proof.
  unfold args_of, x_sym_of, c_sym_of, symbols.
  by rewrite !length_app, !length_fmap, !length_seq.
Qed.

(** Broadcasting [(N,1)], [(1,M)] and [(M,)]. *)
Lemma broadcast_col_col N : broadcast_shapes [N; 1] [N; 1] = Some [N; 1].
Proof. unfold broadcast_shapes. cbn. by rewrite decide_True. Qed.

Lemma broadcast_col_row N M : broadcast_shapes [N; 1] [1; M] = Some [N; M].
Proof.
  unfold broadcast_shapes. cbn. repeat case_decide; by simplify_eq.
Qed.

Lemma broadcast_full_row N M : broadcast_shapes [N; M] [1; M] = Some [N; M].
Proof.
  unfold broadcast_shapes. cbn. repeat case_decide; by simplify_eq.
Qed.

Lemma broadcast_full_vec N M : broadcast_shapes [N; M] [M] = Some [N; M].
Proof. unfold broadcast_shapes. cbn. by rewrite decide_True. Qed.

Lemma foldl_broadcast_fixed s t n :
  broadcast_shapes s t = Some s →
  foldl (λ acc s, acc ≫= λ r, broadcast_shapes r s) (Some s) (replicate n t) = Some s.
Proof. intros Hst. induction n as [|n IH]; simpl; [done|]. by rewrite Hst. Qed.

Lemma broadcast_all_call N M D :
  0 < D →
  broadcast_all (replicate D [N; 1] ++ replicate D [1; M] ++ [[M]]) = Some [N; M].
Proof.
  intros HD. destruct D as [|D]; [lia|].
  unfold broadcast_all. rewrite !foldl_app.
  cbn [replicate foldl]. change (Some [] ≫= _) with (Some [N; 1]).
  rewrite foldl_broadcast_fixed by apply broadcast_col_col.
  cbn [mbind option_bind]. rewrite broadcast_col_row.
  rewrite foldl_broadcast_fixed by apply broadcast_full_row.
  cbn. apply broadcast_full_vec.
Qed.

(** With no spatial axis only [eps] is passed. *)
Lemma broadcast_all_no_axis M : broadcast_all ([] ++ [] ++ [[M]]) = Some [M].
Proof. reflexivity. Qed.

Section CallResult.
Context `{SymbolicEngine} `{Libm}.

(** On a state that satisfies the cache invariant a call whose checks pass
    returns what the function compiled from the object returns. *)
Lemma call_result x c eps diff st :
  cache_inv (self st) → shape_checks x c eps diff = Ok () →
  (__call__ x c eps diff st).2
  = ufunc_call (compiled (self st) (diff_key x diff)) (call_args x c eps).
Proof.
  intros Hinv Hchk. rewrite call_unfold, Hchk.
  destruct (cache (self st) !! diff_key x diff) as [func|] eqn:Hhit; [|done].
  simpl. by rewrite (Hinv _ _ Hhit).
Qed.

(** The array a compiled function returns on the arguments of a call. *)
Lemma ufunc_call_call_args func x c eps N M D :
  shape x = [N; D] → shape c = [M; D] → shape (eps_array c eps) = [M] →
  length (ufunc_args func) = D + (D + 1) → 0 < D →
  ufunc_call func (call_args x c eps)
  = Ok {| shape := [N; M];
          data := (λ idx, eval (zip (ufunc_args func)
                                    ((λ a, bitem a idx) <$> call_args x c eps))
                               (ufunc_body func))
                    <$> ndindex [N; M] |}.
Proof.
  intros Hx Hc He Hlen HD. unfold ufunc_call.
  rewrite (call_args_length x c eps N M D), Hlen, Nat.eqb_refl by done.
  rewrite (call_args_shapes x c eps N M D) by done.
  by rewrite broadcast_all_call.
Qed.

(** C3: the claim, and the docstring's [out : (N,M) float array], fail on
    the code when there is no spatial axis ([D = 0]): every check passes,
    [tuple(x)] and [tuple(c)] are empty, the compiled function receives
    [eps] alone, and for [x] of shape [(2, 0)] and [c] of shape [(3, 0)] the
    result has shape [(3,)], not [(2, 3)]. *)
Theorem call_shape_no_axis :
  shape no_axis_x = [2; 0] ∧ shape no_axis_c = [3; 0]
  ∧ __init__ (Mul (Symbol _EPS) (Symbol _R)) None None = Ok (self new_state)
  ∧ ∃ out, (@__call__ textbook_engine small_libm no_axis_x no_axis_c
              (EpsScalar 1) None new_state).2 = Ok out
           ∧ shape out = [3] ∧ shape out ≠ [2; 3].
Proof.
  split; [done|]. split; [done|]. split; [done|].
  eexists. split; [by vm_compute|]. done.
Qed.

(** X24: for [x] of shape [(N, D)] with [D] at least one, [c] of shape
    [(M, D)], [eps] a scalar or an array of shape [(M,)], and [diff]
    omitted, the call returns an array of shape [(N, M)].  The object is
    any whose cache holds functions compiled by [add_diff_to_cache]. *)
Theorem call_shape (x c : ndarray) (eps : eps_arg) (st : state) (N M D : nat) :
  shape x = [N; D] → shape c = [M; D] →
  match eps with EpsScalar _ => True | EpsArray a => shape a = [M] end →
  0 < D → cache_arity (self st) →
  ∃ out, (__call__ x c eps None st).2 = Ok out ∧ shape out = [N; M].
Proof.
  intros Hx Hc Heps HD Har.
  assert (He : shape (eps_array c eps) = [M]).
  { destruct eps as [v|a]; [|done]. simpl. unfold shape_at. by rewrite Hc. }
  assert (Hkey : length (diff_key x None) = D).
  { simpl. unfold shape_at. rewrite Hx. simpl. apply length_replicate. }
  destruct (call_calls x c eps None st Har) as (func & -> & Hlen).
  { by apply (shape_checks_valid x c eps None N D M). }
  rewrite Hkey in Hlen.
  rewrite (ufunc_call_call_args func x c eps N M D) by done.
  eauto.
Qed.

End CallResult.

(* ================================================================== *)
(** * Arrays: the values the compiled function reads *)

Lemma take_drop_flat_map {A B} (f : A → list B) m (l : list A) : ∀ j a,
  (∀ a, length (f a) = m) → l !! j = Some a →
  take m (drop (j * m) (flat_map f l)) = f a.
Proof.
  induction l as [|a0 l IH]; intros [|j] a Hlen Hj; simplify_eq/=.
  - by apply take_app_length'.
  - rewrite drop_app_add' by done. by apply IH.
Qed.

Lemma lookup_flat_map_const {A B} (f : A → list B) m (l : list A) : ∀ i k a,
  (∀ a, length (f a) = m) → l !! i = Some a → k < m →
  flat_map f l !! (i * m + k) = f a !! k.
Proof.
  induction l as [|a0 l IH]; intros [|i] k a Hlen Hi Hk; simplify_eq/=.
  - apply lookup_app_l. by rewrite Hlen.
  - rewrite lookup_app_r by (rewrite Hlen; lia).
    rewrite Hlen. replace (m + i * m + k - m) with (i * m + k) by lia.
    by apply IH.
Qed.

Lemma nth_fmap_seq (h : nat → float) n i :
  i < n → nth i (h <$> seq 0 n) nan = h i.
Proof.
  intros Hi. rewrite nth_lookup, list_lookup_fmap.
  by rewrite (proj2 (lookup_seq 0 n i i)).
Qed.

(** [tuple(x.T[:,:,None])]: the [j]-th array is column [j] of [x]. *)
Lemma x_args x N D :
  shape x = [N; D] →
  np_tuple (newaxis 2 (np_T x))
  = (λ j, {| shape := [N; 1];
             data := (λ i, nth (i * D + j) (data x) nan) <$> seq 0 N |})
      <$> seq 0 D.
Proof.
  intros Hx. unfold np_tuple, newaxis, np_T. rewrite Hx. simpl.
  apply list_fmap_ext. intros idx j Hj. f_equal.
  apply lookup_seq in Hj as [-> Hlt]. simpl in *.
  replace (N * 1) with N by lia.
  apply (take_drop_flat_map
           (λ j, (λ i, nth (i * D + j) (data x) nan) <$> seq 0 N)
           N (seq 0 D) idx idx).
  - intros a. by rewrite length_fmap, length_seq.
  - by apply lookup_seq.
Qed.

(** [tuple(c.T[:,None,:])]: the [j]-th array is column [j] of [c]. *)
Lemma c_args c M D :
  shape c = [M; D] →
  np_tuple (newaxis 1 (np_T c))
  = (λ j, {| shape := [1; M];
             data := (λ k, nth (k * D + j) (data c) nan) <$> seq 0 M |})
      <$> seq 0 D.
Proof.
  intros Hc. unfold np_tuple, newaxis, np_T. rewrite Hc. simpl.
  apply list_fmap_ext. intros idx j Hj. f_equal.
  apply lookup_seq in Hj as [-> Hlt]. simpl in *.
  replace (M * 1 + 0) with M by lia.
  apply (take_drop_flat_map
           (λ j, (λ k, nth (k * D + j) (data c) nan) <$> seq 0 M)
           M (seq 0 D) idx idx).
  - intros a. by rewrite length_fmap, length_seq.
  - by apply lookup_seq.
Qed.

(** What a ufunc reads from a column, a row and a vector at output index
    [(i, k)]. *)
Lemma bitem_col N col i k :
  i < N → bitem {| shape := [N; 1]; data := col |} [i; k] = nth i col nan.
Proof.
  intros Hi. unfold bitem. cbn. f_equal. repeat case_decide; lia.
Qed.

Lemma bitem_row M row i k :
  k < M → bitem {| shape := [1; M]; data := row |} [i; k] = nth k row nan.
Proof.
  intros Hk. unfold bitem. cbn. f_equal. repeat case_decide; lia.
Qed.

Lemma bitem_vec M v i k :
  k < M → bitem {| shape := [M]; data := v |} [i; k] = nth k v nan.
Proof.
  intros Hk. unfold bitem. cbn. f_equal. repeat case_decide; lia.
Qed.

Lemma ndindex_one M : ndindex [M] = (λ k, [k]) <$> seq 0 M.
Proof.
  simpl. generalize 0. induction M as [|M IH]; intros s; simpl; [done|].
  by rewrite IH.
Qed.

Lemma ndindex_two_lookup N M i k :
  i < N → k < M → ndindex [N; M] !! (i * M + k) = Some [i; k].
Proof.
  intros Hi Hk. change (ndindex [N; M])
    with (flat_map (λ i, cons i <$> ndindex [M]) (seq 0 N)).
  rewrite (lookup_flat_map_const _ M (seq 0 N) i k i).
  - rewrite ndindex_one, <- list_fmap_compose, list_lookup_fmap.
    by rewrite (proj2 (lookup_seq 0 M k k)).
  - intros a. by rewrite ndindex_one, !length_fmap, length_seq.
  - by apply lookup_seq.
  - done.
Qed.

(** [a[i,k]] of a rank-2 array is the element at [i*M + k]. *)
Lemma item_two a N M i k :
  shape a = [N; M] → i < N → k < M → item a [i; k] = data a !! (i * M + k).
Proof.
  intros Ha Hi Hk. unfold item. rewrite Ha.
  rewrite decide_True by (split; [done|by repeat constructor]).
  cbn. f_equal. repeat case_decide; lia.
Qed.

Lemma item_two_inv a N M i k v :
  shape a = [N; M] → item a [i; k] = Some v →
  i < N ∧ k < M ∧ nth (i * M + k) (data a) nan = v.
Proof.
  intros Ha. unfold item. rewrite Ha. case_decide as Hidx; [|done].
  destruct Hidx as [_ Hlt].
  apply Forall2_cons in Hlt as [Hi Hlt]. apply Forall2_cons in Hlt as [Hk _].
  cbn. intros Hv. split; [done|]. split; [done|].
  rewrite nth_lookup.
  match type of Hv with
  | _ !! ?n = _ => replace (i * M + k) with n by (repeat case_decide; lia)
  end.
  by rewrite Hv.
Qed.

(* ================================================================== *)
(** * Evaluation at a point that coincides with a centre *)

Lemma lookup_arg_fmap (f : nat → string) (g : nat → float) (l : list nat) rest j :
  Inj (=) (=) f → j ∈ l →
  lookup_arg (((λ j, (f j, g j)) <$> l) ++ rest) (f j) = g j.
Proof.
  intros Hinj. induction l as [|a l IH]; intros Hj; [by apply elem_of_nil in Hj|].
  simpl. case_bool_decide as Heq.
  - by rewrite (Hinj _ _ Heq).
  - apply IH. apply elem_of_cons in Hj as [->|Hj]; done.
Qed.

Lemma lookup_arg_skip (f : nat → string) (g : nat → float) (l : list nat) rest s :
  (∀ a, f a ≠ s) →
  lookup_arg (((λ j, (f j, g j)) <$> l) ++ rest) s = lookup_arg rest s.
Proof.
  intros Hne. induction l as [|a l IH]; simpl; [done|].
  by rewrite bool_decide_eq_false_2.
Qed.

Lemma x_name_inj : Inj (=) (=) (λ j : nat, "x" +:+ pretty j).
Proof. intros i j Heq. simpl in Heq. injection Heq as Heq. by apply (inj pretty). Qed.

Lemma c_name_inj : Inj (=) (=) (λ j : nat, "c" +:+ pretty j).
Proof. intros i j Heq. simpl in Heq. injection Heq as Heq. by apply (inj pretty). Qed.

(** The arguments bound to their names at output index [(i, k)]: the
    coordinates of point [i], the coordinates of centre [k], and the shape
    parameter of centre [k]. *)
Lemma call_env x c eps N M D i k :
  shape x = [N; D] → shape c = [M; D] → shape (eps_array c eps) = [M] →
  i < N → k < M →
  zip (symbols "x" D ++ symbols "c" D ++ [_EPS])
      ((λ a, bitem a [i; k]) <$> call_args x c eps)
  = ((λ j, ("x" +:+ pretty j, nth (i * D + j) (data x) nan)) <$> seq 0 D)
    ++ ((λ j, ("c" +:+ pretty j, nth (k * D + j) (data c) nan)) <$> seq 0 D)
    ++ [(_EPS, nth k (data (eps_array c eps)) nan)].
Proof.
  intros Hx Hc He Hi Hk. unfold call_args.
  rewrite (x_args x N D Hx), (c_args c M D Hc), !fmap_app.
  rewrite zip_with_app
    by (unfold symbols; by rewrite !length_fmap).
  rewrite zip_with_app
    by (unfold symbols; by rewrite !length_fmap).
  unfold symbols. rewrite <- !list_fmap_compose.
  rewrite !zip_with_fmap_l, !zip_with_fmap_r, !zip_with_diag.
  f_equal; [|f_equal].
  - apply list_fmap_ext. intros idx j Hj. simpl.
    by rewrite bitem_col, nth_fmap_seq.
  - apply list_fmap_ext. intros idx j Hj. simpl.
    by rewrite bitem_row, nth_fmap_seq.
  - simpl. destruct (eps_array c eps) as [sh dt]. simpl in *. subst sh.
    by rewrite bitem_vec.
Qed.

Section Evaluation.
Context `{Libm}.

Lemma eval_foldl_add_zero env terms : ∀ acc,
  eval env acc = 0%float → Forall (λ t, eval env t = 0%float) terms →
  eval env (foldl Add acc terms) = 0%float.
Proof.
  induction terms as [|t terms IH]; intros acc Hacc Hterms; simpl; [done|].
  apply Forall_cons in Hterms as [Ht Hterms].
  apply IH; [|done]. simpl. by rewrite Hacc, Ht.
Qed.

(** Where every coordinate of the point is the finite coordinate of the
    centre, the radial distance evaluates to [+0], given that [pow(0, 2)]
    is [0] (C99, Annex F). *)
Lemma eval_radial_coincident env D :
  c_pow 0 2 = 0%float →
  (∀ j, j < D →
     lookup_arg env ("x" +:+ pretty j) = lookup_arg env ("c" +:+ pretty j)
     ∧ is_finite (lookup_arg env ("x" +:+ pretty j)) = true) →
  eval env (radial_distance (symbols "x" D) (symbols "c" D)) = 0%float.
Proof.
  intros Hpow Hsame. unfold radial_distance, symbols.
  rewrite zip_with_fmap_l, zip_with_fmap_r, zip_with_diag.
  cbn [eval]. rewrite eval_foldl_add_zero; [done|done|].
  apply Forall_fmap, Forall_seq. intros j [_ Hj]. simpl in Hj.
  destruct (Hsame j Hj) as [Heq Hfin]. cbn [compose eval].
  rewrite <- Heq, sub_diag_finite by done.
  change (float_of_Z 2) with 2%float. by rewrite Hpow.
Qed.

End Evaluation.

Section Singularity.
Context `{SymbolicEngine} `{Libm}.

(** With a positive numeric tolerance and a limiting value that evaluates
    to [v] (be it a table entry or a computed limit), the value returned
    for a point that coincides with a centre is [v]. *)
Lemma value_at_center (x c : ndarray) (eps : eps_arg) (st : state)
    (N M D i k : nat) (t : float) (v : float) :
  cache_inv (self st) →
  tol (self st) = Some (Float t) → (0 <? t)%float = true →
  (∀ env, eval env (limit_value (self st) (replicate D 0)) = v) →
  shape x = [N; D] → shape c = [M; D] → shape (eps_array c eps) = [M] →
  0 < D → c_pow 0 2 = 0%float →
  (∀ j, j < D →
     ∃ w, item x [i; j] = Some w ∧ item c [k; j] = Some w ∧ is_finite w = true) →
  ∃ out, (__call__ x c eps None st).2 = Ok out
         ∧ shape out = [N; M] ∧ item out [i; k] = Some v.
Proof.
  intros Hinv Htol Hpos Hv Hx Hc He HD Hpow Hsame.
  destruct (Hsame 0 HD) as (w0 & Hx0 & Hc0 & _).
  apply (item_two_inv x N D) in Hx0 as (Hi & _ & _); [|done].
  apply (item_two_inv c M D) in Hc0 as (Hk & _ & _); [|done].
  assert (Hkey : diff_key x None = replicate D 0).
  { simpl. unfold shape_at. by rewrite Hx. }
  assert (Hlen : length (replicate D 0) = D) by apply length_replicate.
  rewrite call_result; [|done|].
  2:{ apply (shape_checks_valid x c eps None N D M); try done.
      by rewrite Hkey. }
  rewrite Hkey.
  rewrite (ufunc_call_call_args _ x c eps N M D); try done.
  2:{ unfold compiled, ufuncify. cbn [ufunc_args].
      by rewrite args_of_length, Hlen. }
  eexists. split; [done|]. split; [done|].
  rewrite (item_two _ N M) by done. cbn [data].
  rewrite list_lookup_fmap, ndindex_two_lookup by done.
  cbn [fmap option_fmap option_map]. f_equal.
  unfold compiled, ufuncify, compiled_expr. cbn [ufunc_args ufunc_body].
  rewrite Htol. cbn [eval holds]. rewrite Hv.
  unfold args_of, r_sym_of, x_sym_of, c_sym_of. rewrite Hlen.
  rewrite (call_env x c eps N M D) by done.
  rewrite eval_radial_coincident; [by rewrite Hpos| done |].
  intros j Hj. destruct (Hsame j Hj) as (w & Hxj & Hcj & Hfin).
  apply (item_two_inv x N D) in Hxj as (_ & _ & Hxj); [|done].
  apply (item_two_inv c M D) in Hcj as (_ & _ & Hcj); [|done].
  assert (Hin : j ∈ seq 0 D) by (apply elem_of_seq; lia).
  rewrite (lookup_arg_fmap (λ j, "x" +:+ pretty j)
             (λ j, nth (i * D + j) (data x) nan)) by (done || apply x_name_inj).
  rewrite (lookup_arg_skip (λ j, "x" +:+ pretty j)) by (intros a; discriminate).
  rewrite (lookup_arg_fmap (λ j, "c" +:+ pretty j)
             (λ j, nth (k * D + j) (data c) nan)) by (done || apply c_name_inj).
  by rewrite Hxj, Hcj.
Qed.

(** The catalogue entry after the module has been loaded. *)
Lemma phs1_fields : phs1 = Ok phs1_loaded.
Proof. reflexivity. Qed.

(** The limits table of [phs1] holds the all-zeros index of one, two and
    three dimensions and no other. *)
Lemma phs1_limits_lookup D :
  limits phs1_loaded !! replicate D 0
  = if decide (1 ≤ D ≤ 3) then Some (Integer 0) else None.
Proof.
  destruct D as [|[|[|[|D]]]]; try reflexivity.
  rewrite decide_False by lia. unfold phs1_loaded. cbn [limits].
  by rewrite !lookup_insert_ne, lookup_empty.
Qed.

(** C2: for [phs1] and with [diff] omitted, the entry of the result for a
    point whose (finite) coordinates are those of a centre is exactly [0].
    In one, two and three dimensions the limit comes from the table; in
    more dimensions it is the one the symbolic engine computes, and is
    assumed to evaluate to [0].  [pow(0, 2)] is assumed to be [0] (C99,
    Annex F).  The object may have been called before: its cache holds what
    it compiled. *)
Theorem phs1_zero_at_center (p : RBF) (x c : ndarray) (eps : eps_arg)
    (st : state) (N M D i k : nat) :
  phs1 = Ok p →
  expr (self st) = expr p → tol (self st) = tol p → limits (self st) = limits p →
  cache_inv (self st) →
  shape x = [N; D] → shape c = [M; D] →
  match eps with EpsScalar _ => True | EpsArray a => shape a = [M] end →
  1 ≤ D → D ≤ 3 ∨ symbolic_limit_is_zero (self st) D →
  c_pow 0 2 = 0%float →
  (∀ j, j < D →
     ∃ w, item x [i; j] = Some w ∧ item c [k; j] = Some w ∧ is_finite w = true) →
  ∃ out, (__call__ x c eps None st).2 = Ok out
         ∧ shape out = [N; M] ∧ item out [i; k] = Some 0%float.
Proof.
  rewrite phs1_fields.
  intros [= <-] _ Htol Hlim Hinv Hx Hc Heps HD Hengine Hpow Hsame.
  apply (value_at_center x c eps st N M D i k tol_1e_10); try done.
  - intros env. unfold limit_value. rewrite Hlim, phs1_limits_lookup.
    case_decide as Htable; [done|].
    destruct Hengine as [?|Hzero]; [lia|]. apply Hzero.
  - destruct eps as [e|a]; [|done]. simpl. unfold shape_at. by rewrite Hc.
Qed.

(** However often [phs1] has been called since the module was loaded, it
    has the expression, tolerance and limits it was loaded with, and its
    cache holds what it compiled from them. *)
Lemma called_from_phs1 st :
  called_from phs1_state st →
  expr (self st) = expr phs1_loaded ∧ tol (self st) = tol phs1_loaded
  ∧ limits (self st) = limits phs1_loaded ∧ cache_inv (self st).
Proof.
  induction 1 as [|st x c eps diff _ (He & Ht & Hl & Hinv)].
  - repeat split. by apply empty_cache_inv.
  - destruct (call_frame x c eps diff st) as (He' & Ht' & Hl').
    rewrite He', Ht', Hl'. repeat split; try done. by apply call_cache_inv.
Qed.

End Singularity.

(** The sample call on [phs1]: distances times [eps = 2], and [0] where the
    point is the centre. *)
Example phs1_sample_values :
  (@__call__ textbook_engine small_libm sample_x sample_c (EpsScalar 2) None
     phs1_state).2
  = Ok {| shape := [3; 2];
          data := [10; 0; 0; 10; 10; 20]%float |}.
Proof. by vm_compute. Qed.

(** Without a tolerance nothing is patched: the compiled expression is the
    substituted one. *)
Example new_state_compiles_plain :
  ufunc_body <$> cache (self (@__call__ textbook_engine small_libm line_x line_c
                                (EpsScalar 1) None new_state).1) !! [0]
  = Some (Mul (Symbol "eps")
            (Sqrt (Add (Integer 0)
                     (Pow (Sub (Symbol "x0") (Symbol "c0")) (Integer 2))))).
Proof. by vm_compute. Qed.

(* ================================================================== *)
(** * The theorems at the sample inputs *)

(** C5 as stated does not hold: for a rank-1 [x] the error names the label
    and the two ranks; it is not the message that names an axis and two
    lengths. *)
Lemma call_rank_error_counterexample :
  length (shape rank1_x) ≠ 2
  ∧ @__call__ textbook_engine small_libm rank1_x sample_c (EpsScalar 1) None
      new_state
    = (new_state,
       Raise (ValueError
         "*x* is a 1 dimensional array but it should be a 2 dimensional array"))
  ∧ ∀ axis label i j,
      "*x* is a 1 dimensional array but it should be a 2 dimensional array"
      ≠ axis_message axis label i j.
Proof.
  split; [simpl; lia|]. split; [by vm_compute|].
  intros axis label i j. unfold axis_message. simpl. discriminate.
Qed.

Lemma call_shape_errors_witness :
  @__call__ textbook_engine small_libm rank1_x sample_c (EpsScalar 1) None new_state
  = (new_state, Raise (ValueError (rank_message "x" 1 2)))
  ∧ @__call__ textbook_engine small_libm sample_x no_axis_c (EpsScalar 1) None
      new_state
    = (new_state, Raise (ValueError (axis_message 1 "c" 0 2)))
  ∧ @__call__ textbook_engine small_libm sample_x sample_c (EpsArray rank1_x) None
      new_state
    = (new_state, Raise (ValueError (axis_message 0 "eps" 3 2))).
Proof.
  split; [|split].
  - apply (proj1 (@call_shape_errors textbook_engine small_libm
                    rank1_x sample_c (EpsScalar 1) None new_state)).
    simpl. lia.
  - apply (proj1 (proj2 (@call_shape_errors textbook_engine small_libm
                           sample_x no_axis_c (EpsScalar 1) None new_state))
             3 2 3 0); [reflexivity | reflexivity | lia].
  - apply (proj2 (proj2 (@call_shape_errors textbook_engine small_libm
                           sample_x sample_c (EpsArray rank1_x) None new_state))
             3 2 2 rank1_x 3); [reflexivity | reflexivity | reflexivity | reflexivity | lia].
Defined.

Lemma call_shape_witness :
  ∃ out, (@__call__ textbook_engine small_libm sample_x sample_c (EpsScalar 2) None
            new_state).2 = Ok out
         ∧ shape out = [3; 2].
Proof.
  apply (@call_shape textbook_engine small_libm sample_x sample_c (EpsScalar 2)
           new_state 3 2 2);
    [reflexivity | reflexivity | exact I | lia | by apply empty_cache_arity].
Defined.

(** The key [(0,)] is cached by a call on the line; a call in the plane
    with that [diff] fails and leaves the state as it was. *)
Lemma call_diff_length_error_witness :
  let st1 := (@__call__ textbook_engine small_libm line_x line_c (EpsScalar 1)
                (Some (PyTuple [0])) new_state).1 in
  cache (self st1) !! [0] ≠ None
  ∧ ∃ msg, @__call__ textbook_engine small_libm sample_x sample_c (EpsScalar 2)
             (Some (PyTuple [0])) st1
           = (st1, Raise (ValueError msg)).
Proof.
  intros st1. split; [by vm_compute|].
  apply (proj1 (@call_diff_length_error textbook_engine small_libm
                  sample_x sample_c (EpsScalar 2) (PyTuple [0]) st1 3 2
                  eq_refl ltac:(simpl; lia))).
Defined.

Lemma call_cache_monotone_witness :
  let st1 := (@__call__ textbook_engine small_libm sample_x sample_c (EpsScalar 2)
                None new_state).1 in
  (@__call__ textbook_engine small_libm sample_c sample_x (EpsScalar 1) None st1).1
  = st1.
Proof.
  intros st1.
  refine (proj1 (proj2 (proj2 (proj2
            (@call_cache_monotone textbook_engine small_libm
               sample_x sample_c (EpsScalar 2) None new_state)))
            _ sample_c sample_x (EpsScalar 1) None _));
    [by vm_compute | reflexivity].
Defined.

Lemma call_list_tuple_witness :
  let st1 := (@__call__ textbook_engine small_libm sample_x sample_c (EpsScalar 2)
                (Some (PyList [0; 0])) new_state).1 in
  (@__call__ textbook_engine small_libm sample_x sample_c (EpsScalar 2)
     (Some (PyTuple [0; 0])) st1).1 = st1.
Proof.
  intros st1.
  refine (proj2 (proj2 (proj2
            (@call_list_tuple textbook_engine small_libm
               sample_x sample_c (EpsScalar 2) [0; 0] new_state) _))
            sample_x sample_c (EpsScalar 2)).
  by vm_compute.
Defined.

(** The second sample point is the first sample centre. *)
Lemma phs1_zero_at_center_witness :
  ∃ out, (@__call__ textbook_engine small_libm sample_x sample_c (EpsScalar 2) None
            phs1_state).2 = Ok out
         ∧ shape out = [3; 2] ∧ item out [1; 0] = Some 0%float.
Proof.
  apply (@phs1_zero_at_center textbook_engine small_libm phs1_loaded
           sample_x sample_c (EpsScalar 2) phs1_state 3 2 2 1 0);
    [ reflexivity | reflexivity | reflexivity | reflexivity
    | by apply empty_cache_inv | reflexivity | reflexivity | exact I | lia
    | left; lia | reflexivity | ].
  intros [|[|j]] Hj; [by exists 3%float | by exists 4%float | lia].
Defined.

(* ================================================================== *)
(** * More about _assert_shape *)

Lemma check_axes_ok_iff label : ∀ (ashape : list nat) pattern axis,
  length ashape = length pattern →
  check_axes axis (zip ashape pattern) label = Ok ()
  ↔ Forall2 (λ i p, ∀ j, p = Some j → i = j) ashape pattern.
Proof.
  induction ashape as [|i ashape IH]; intros [|p pattern] axis Hlen;
    simplify_eq/=.
  - split; [constructor|done].
  - destruct p as [j|].
    + destruct (Nat.eqb_spec i j) as [->|Hne]; simpl.
      * rewrite IH by done. split.
        -- intros Hrest. constructor; [by intros ? [= <-]|done].
        -- by intros [_ Hrest]%Forall2_cons.
      * split; [done|]. intros [Hhead _]%Forall2_cons.
        destruct Hne. by apply Hhead.
    + rewrite IH by done. split.
      * intros Hrest. by constructor.
      * by intros [_ Hrest]%Forall2_cons.
Qed.

Lemma check_axes_first_mismatch label : ∀ axis (ashape : list nat) pattern start i j,
  ashape !! axis = Some i → pattern !! axis = Some (Some j) → i ≠ j →
  (∀ axis' i' j', axis' < axis → ashape !! axis' = Some i' →
     pattern !! axis' = Some (Some j') → i' = j') →
  check_axes start (zip ashape pattern) label
  = Raise (ValueError (axis_message (start + axis) label i j)).
Proof.
  induction axis as [|axis IH];
    intros [|i0 ashape] [|p pattern] start i j Hi Hp Hne Hbefore;
    simplify_eq/=.
  - destruct (Nat.eqb_spec i j); [done|]. by rewrite Nat.add_0_r.
  - assert (Hrest : check_axes (S start) (zip ashape pattern) label
                    = Raise (ValueError (axis_message (S start + axis) label i j))).
    { apply IH; try done. intros axis' i' j' Hlt Hi' Hp'.
      apply (Hbefore (S axis') i' j'); [lia|done|done]. }
    replace (start + S axis) with (S start + axis) by lia.
    destruct p as [j0|]; [|done].
    assert (i0 = j0) as -> by (apply (Hbefore 0 i0 j0); [lia|done|done]).
    by rewrite Nat.eqb_refl.
Qed.

(** X1: [_assert_shape] returns exactly when the value has as many axes as
    the pattern and every axis the pattern specifies has the specified
    length; an axis given as [None] may have any length. *)
Theorem assert_shape_passes_iff {A} `{Shaped A} (a : A)
    (pattern : list (option nat)) (label : string) :
  _assert_shape a pattern label = Ok ()
  ↔ Forall2 (λ i p, ∀ j, p = Some j → i = j) (np_shape a) pattern.
Proof.
  unfold _assert_shape.
  destruct (Nat.eqb_spec (length (np_shape a)) (length pattern)) as [Hlen|Hlen];
    simpl.
  - by apply check_axes_ok_iff.
  - split; [done|]. intros Hall. destruct Hlen. by eapply Forall2_length.
Qed.

(** X2: when the ranks agree, the error [_assert_shape] raises is about the
    first axis whose length differs from the specified one, and names that
    axis, the label, the length found and the length expected. *)
Theorem assert_shape_reports_first_mismatch {A} `{Shaped A} (a : A)
    (pattern : list (option nat)) (label : string) (axis i j : nat) :
  length (np_shape a) = length pattern →
  np_shape a !! axis = Some i → pattern !! axis = Some (Some j) → i ≠ j →
  (∀ axis' i' j', axis' < axis → np_shape a !! axis' = Some i' →
     pattern !! axis' = Some (Some j') → i' = j') →
  _assert_shape a pattern label
  = Raise (ValueError (axis_message axis label i j)).
Proof.
  intros Hlen Hi Hp Hne Hbefore. unfold _assert_shape.
  rewrite Hlen, Nat.eqb_refl. simpl.
  by rewrite (check_axes_first_mismatch label axis (np_shape a) pattern 0 i j).
Qed.

(** Of a [(4, 2, 5)] array checked against [(None, 3, 6)], both specified
    axes are wrong; axis 1 is reported. *)
Lemma assert_shape_reports_first_mismatch_witness :
  _assert_shape {| shape := [4; 2; 5]; data := [] |} [None; Some 3; Some 6] "a"
  = Raise (ValueError (axis_message 1 "a" 2 3)).
Proof.
  apply (assert_shape_reports_first_mismatch
           {| shape := [4; 2; 5]; data := [] |} [None; Some 3; Some 6] "a" 1 2 3);
    [reflexivity | reflexivity | reflexivity | lia |].
  intros [|axis'] i' j' Hlt Hi Hp; [discriminate|lia].
Defined.

(* ================================================================== *)
(** * More about the constructor *)

Lemma has_subs_inv e s new y :
  has (subs e s new) y = true → (has e y = true ∧ y ≠ s) ∨ has new y = true.
Proof.
  induction e; simpl; try case_bool_decide; simpl;
    rewrite ?orb_true_iff, ?bool_decide_eq_true; intuition congruence.
Qed.

Lemma free_symbols_subs e s new :
  free_symbols (subs e s new) ⊆ (free_symbols e ∖ {[ s ]}) ∪ free_symbols new.
Proof.
  intros y Hy. apply has_free_symbols, has_subs_inv in Hy as [[Hy Hne]|Hy].
  - apply elem_of_union_l, elem_of_difference.
    split; [by apply has_free_symbols|]. by rewrite elem_of_singleton.
  - by apply elem_of_union_r, has_free_symbols.
Qed.

Lemma init_tolerance_test (t : Expr) :
  negb (size (free_symbols t ∖ {[ _EPS ]}) =? 0) = false
  ↔ free_symbols t ⊆ {[ _EPS ]}.
Proof. apply other_symbols_test_false. Qed.

(** The constructor in one equation. *)
Lemma init_unfold e tolerance lims :
  __init__ e tolerance lims
  = if negb (size (free_symbols e ∖ {[ _R; _EPS ]}) =? 0)
    then Raise (ValueError invalid_symbols_message)
    else if negb (has e _R) then Raise (ValueError missing_r_message)
    else match tolerance with
         | Some t =>
             if negb (size (free_symbols t ∖ {[ _EPS ]}) =? 0)
             then Raise (ValueError invalid_tol_message)
             else Ok {| expr := if has e _EPS then e
                                else subs e _R (Mul (Symbol _EPS) (Symbol _R));
                        tol := Some t; cache := ∅;
                        limits := match lims with None => ∅ | Some l => l end |}
         | None =>
             Ok {| expr := if has e _EPS then e
                           else subs e _R (Mul (Symbol _EPS) (Symbol _R));
                   tol := None; cache := ∅;
                   limits := match lims with None => ∅ | Some l => l end |}
         end.
Proof.
  unfold __init__.
  destruct (negb (size _ =? 0)); [done|].
  destruct (has e _R); [|done]. simpl.
  destruct tolerance as [t|]; simpl.
  - destruct (negb (size _ =? 0)); [done|]. simpl. by destruct (has e _EPS).
  - by destruct (has e _EPS).
Qed.

(** X3: the constructor returns an object exactly when the expression has
    no free symbol besides [r] and [eps], contains [r], and the tolerance,
    if one is given, has no free symbol besides [eps]. *)
Theorem init_accepts_iff (e : Expr) (tolerance : option Expr)
    (lims : option (gmap (list nat) Expr)) :
  is_ok (__init__ e tolerance lims) = true
  ↔ free_symbols e ⊆ {[ _R; _EPS ]} ∧ has e _R = true
    ∧ match tolerance with
      | Some t => free_symbols t ⊆ {[ _EPS ]}
      | None => True
      end.
Proof.
  rewrite init_unfold.
  destruct (negb (size (free_symbols e ∖ _) =? 0)) eqn:Hsym.
  - apply other_symbols_test in Hsym as (s & Hs & Hout).
    split; [done|]. intros (Hsub & _). destruct Hout. by apply Hsub.
  - apply other_symbols_test_false in Hsym.
    destruct (has e _R); simpl; [|by split; [|intros (_ & ? & _)]].
    destruct tolerance as [t|]; [|done].
    destruct (negb (size (free_symbols t ∖ _) =? 0)) eqn:Htol.
    + apply other_symbols_test in Htol as (s & Hs & Hout).
      split; [done|]. intros (_ & _ & Hsub). destruct Hout. by apply Hsub.
    + by apply init_tolerance_test in Htol.
Qed.

(** X4: a tolerance with a free symbol other than [eps] (the radial symbol
    [r] included) makes the constructor raise the tolerance error, once the
    expression has passed its own two checks. *)
Theorem init_rejects_tolerance (e t : Expr) (lims : option (gmap (list nat) Expr)) :
  free_symbols e ⊆ {[ _R; _EPS ]} → has e _R = true →
  (∃ s, s ∈ free_symbols t ∧ s ≠ _EPS) →
  __init__ e (Some t) lims = Raise (ValueError invalid_tol_message).
Proof.
  intros Hsym HR (s & Hs & Hne). rewrite init_unfold.
  apply other_symbols_test_false in Hsym. rewrite Hsym, HR. simpl.
  assert (Htol : negb (size (free_symbols t ∖ {[ _EPS ]}) =? 0) = true).
  { apply other_symbols_test. exists s. split; [done|].
    by rewrite elem_of_singleton. }
  by rewrite Htol.
Qed.

Lemma init_rejects_tolerance_witness :
  __init__ eps_r (Some (Mul (Float tol_1e_10) (Symbol _R))) None
  = Raise (ValueError invalid_tol_message).
Proof.
  apply init_rejects_tolerance.
  - intros s. unfold eps_r. simpl. rewrite !elem_of_union, !elem_of_singleton.
    tauto.
  - reflexivity.
  - exists _R. split; [|discriminate]. simpl.
    apply elem_of_union_r. by apply elem_of_singleton_2.
Defined.

(** X5: the stored expression of every constructed object contains both
    [r] and [eps] and no other symbol. *)
Theorem init_stored_symbols (e : Expr) (tolerance : option Expr)
    (lims : option (gmap (list nat) Expr)) (self0 : RBF) :
  __init__ e tolerance lims = Ok self0 →
  free_symbols (expr self0) = {[ _R; _EPS ]}.
Proof.
  intros (Hsym & HR & He & _)%init_ok.
  assert (Hhas : has (expr self0) _R = true ∧ has (expr self0) _EPS = true).
  { rewrite He. destruct (has e _EPS) eqn:Heps; [done|].
    split; by apply has_subs. }
  assert (Hsub : free_symbols (expr self0) ⊆ {[ _R; _EPS ]}).
  { rewrite He. destruct (has e _EPS); [done|].
    intros s Hs. apply free_symbols_subs in Hs.
    apply elem_of_union in Hs as [Hs|Hs].
    - apply elem_of_difference in Hs as [Hs _]. by apply Hsym.
    - simpl in Hs. apply elem_of_union in Hs as [Hs|Hs];
        apply elem_of_singleton in Hs as ->;
        [by apply elem_of_union_r, elem_of_singleton_2
        |by apply elem_of_union_l, elem_of_singleton_2]. }
  destruct Hhas as [Hr Heps]. apply has_free_symbols in Hr, Heps.
  apply set_eq. intros s. split; [apply Hsub|].
  intros [Hs|Hs]%elem_of_union; apply elem_of_singleton in Hs as ->; done.
Qed.

Lemma init_stored_symbols_witness :
  free_symbols (expr (mk_RBF (Mul (Symbol "eps") (Symbol "r")) None ∅ ∅))
  = {[ _R; _EPS ]}.
Proof.
  apply (init_stored_symbols (Symbol "r") None None
           (mk_RBF (Mul (Symbol "eps") (Symbol "r")) None ∅ ∅)).
  reflexivity.
Defined.

(** X6: constructing again from the expression, tolerance and limits of a
    constructed object gives that object back: the substitution of
    [eps*r] for [r] is applied at most once. *)
Theorem init_again (e : Expr) (tolerance : option Expr)
    (lims : option (gmap (list nat) Expr)) (self0 : RBF) :
  __init__ e tolerance lims = Ok self0 →
  __init__ (expr self0) (tol self0) (Some (limits self0)) = Ok self0.
Proof.
  intros Hinit. pose proof Hinit as (Hsym & HR & He & Ht & Hc & Hl)%init_ok.
  assert (Hhas : has (expr self0) _R = true ∧ has (expr self0) _EPS = true).
  { rewrite He. destruct (has e _EPS) eqn:Heps; [done|].
    split; by apply has_subs. }
  destruct Hhas as [Hr Heps].
  assert (Hsub : negb (size (free_symbols (expr self0) ∖ {[ _R; _EPS ]}) =? 0)
                 = false).
  { apply other_symbols_test_false. rewrite He. destruct (has e _EPS); [done|].
    intros s Hs. apply free_symbols_subs in Hs.
    apply elem_of_union in Hs as [Hs|Hs].
    - apply elem_of_difference in Hs as [Hs _]. by apply Hsym.
    - simpl in Hs. apply elem_of_union in Hs as [Hs|Hs];
        apply elem_of_singleton in Hs as ->;
        [by apply elem_of_union_r, elem_of_singleton_2
        |by apply elem_of_union_l, elem_of_singleton_2]. }
  rewrite init_unfold, Hsub, Hr, Heps. simpl.
  rewrite Ht. revert Hinit. rewrite init_unfold.
  destruct (negb (size (free_symbols e ∖ _) =? 0)); [done|].
  destruct (negb (has e _R)); [done|].
  destruct tolerance as [t|].
  - destruct (negb (size (free_symbols t ∖ _) =? 0)); [done|].
    intros _. destruct self0 as [e0 t0 c0 l0]. simpl in *. by subst.
  - intros _. destruct self0 as [e0 t0 c0 l0]. simpl in *. by subst.
Qed.

Lemma init_again_witness :
  __init__ (Mul (Symbol "eps") (Symbol "r")) None (Some ∅)
  = Ok (mk_RBF (Mul (Symbol "eps") (Symbol "r")) None ∅ ∅).
Proof.
  apply (init_again (Symbol "r") None None
           (mk_RBF (Mul (Symbol "eps") (Symbol "r")) None ∅ ∅)).
  reflexivity.
Defined.

(* ================================================================== *)
(** * More about add_diff_to_cache *)

Lemma diff_events_count `{SymbolicEngine} pairs : ∀ e,
  length (List.filter is_diff_event (diff_events e pairs))
  = length (List.filter (λ o, negb (o =? 0)) pairs.*2).
Proof.
  induction pairs as [|[xi order] rest IH]; intros e; simpl; [done|].
  destruct (decide (order = 0)) as [->|Hne]; simpl; [done|].
  destruct (Nat.eqb_spec order 0); [done|]. simpl. by rewrite IH.
Qed.

Lemma limit_events_no_diff `{SymbolicEngine} pairs : ∀ e,
  List.filter is_diff_event (limit_events e pairs) = [].
Proof. induction pairs as [|[xi ci] rest IH]; intros e; simpl; [done|]. apply IH. Qed.

Lemma snd_zip_symbols (diff : list nat) : (zip (x_sym_of diff) diff).*2 = diff.
Proof.
  apply snd_zip. unfold x_sym_of, symbols. by rewrite length_fmap, length_seq.
Qed.

(** X8: sympy's [diff] is called once for every axis whose order is not
    zero and never for an axis of order zero: the number of such calls in
    a compilation is the number of nonzero entries of [diff]. *)
Theorem add_diff_to_cache_diff_calls `{SymbolicEngine} (diff : list nat) (st : state) :
  let st1 := (add_diff_to_cache diff st).1 in
  length (List.filter is_diff_event (drop (length (trace st)) (trace st1)))
  = length (List.filter (λ o, negb (o =? 0)) diff).
Proof.
  intros st1. subst st1. rewrite add_diff_to_cache_run. simpl.
  rewrite drop_app_length. unfold compile_events.
  rewrite !List.filter_app, !length_app, diff_events_count, snd_zip_symbols.
  assert (Hrest : List.filter is_diff_event
            (match tol (self st) with
             | Some _ =>
                 EvLimitsLookup diff
                 :: match limits (self st) !! diff with
                    | Some _ => []
                    | None => limit_events (diff_expr (self st) diff)
                                (zip (x_sym_of diff) (c_sym_of diff))
                    end
             | None => []
             end) = []).
  { destruct (tol (self st)); [|done]. simpl.
    destruct (limits (self st) !! diff); [done|]. apply limit_events_no_diff. }
  rewrite Hrest. simpl. lia.
Qed.

(* ================================================================== *)
(** * More about __call__ *)

Lemma ndindex_two_length N M : length (ndindex [N; M]) = N * M.
Proof.
  change (ndindex [N; M])
    with (flat_map (λ i, cons i <$> ndindex [M]) (seq 0 N)).
  assert (Hblock : ∀ i : nat, length (cons i <$> ndindex [M]) = M)
    by (intros i; by rewrite ndindex_one, !length_fmap, length_seq).
  generalize (ndindex [M]) Hblock. intros block Hlen.
  generalize 0. induction N as [|N IH]; intros s; cbn [seq flat_map]; [done|].
  rewrite length_app, IH, Hlen. lia.
Qed.

Section MoreCalls.
Context `{SymbolicEngine} `{Libm}.

(** Every entry the calls since [st0] touched is either the one [st0] had
    or the function compiled from the fields of [st0]. *)
Lemma called_from_cache st0 st :
  called_from st0 st →
  expr (self st) = expr (self st0) ∧ tol (self st) = tol (self st0)
  ∧ limits (self st) = limits (self st0)
  ∧ ∀ key, cache (self st) !! key = cache (self st0) !! key
           ∨ (cache (self st0) !! key = None
              ∧ cache (self st) !! key = Some (compiled (self st0) key)).
Proof.
  induction 1 as [|st x c eps diff _ (He & Ht & Hl & Hcache)].
  - repeat split. by left.
  - destruct (call_frame x c eps diff st) as (He' & Ht' & Hl').
    rewrite He', Ht', Hl'. repeat split; try done.
    intros key. rewrite call_unfold.
    destruct (shape_checks x c eps diff); [|by apply Hcache].
    destruct (cache (self st) !! diff_key x diff) eqn:Hhit; [by apply Hcache|].
    simpl. rewrite lookup_insert. case_decide as Hk; [|by apply Hcache].
    subst key. destruct (Hcache (diff_key x diff)) as [Hsame|[Hnone Hsome]].
    + right. split; [by rewrite <- Hsame|]. f_equal. by apply compiled_ext.
    + congruence.
Qed.

(** The value of every entry of the result, for a call whose checks
    pass. *)
Lemma entry_value x c eps diff st N M D i k :
  cache_inv (self st) →
  shape x = [N; D] → shape c = [M; D] → shape (eps_array c eps) = [M] →
  length (diff_key x diff) = D → 0 < D → i < N → k < M →
  ∃ out, (__call__ x c eps diff st).2 = Ok out
         ∧ shape out = [N; M] ∧ length (data out) = N * M
         ∧ item out [i; k]
           = Some (eval (point_env x c eps D i k)
                        (compiled_expr (self st) (diff_key x diff))).
Proof.
  intros Hinv Hx Hc He Hkey HD Hi Hk.
  rewrite call_result; [|done|by apply (shape_checks_valid x c eps diff N D M)].
  rewrite (ufunc_call_call_args _ x c eps N M D); try done.
  2:{ unfold compiled, ufuncify. cbn [ufunc_args].
      by rewrite args_of_length, Hkey. }
  eexists. split; [done|]. split; [done|]. cbn [data].
  split; [by rewrite length_fmap, ndindex_two_length|].
  rewrite (item_two _ N M) by done. cbn [data].
  rewrite list_lookup_fmap, ndindex_two_lookup by done.
  cbn [fmap option_fmap option_map]. f_equal.
  unfold compiled, ufuncify. cbn [ufunc_args ufunc_body].
  unfold args_of, x_sym_of, c_sym_of. rewrite Hkey.
  by rewrite (call_env x c eps N M D).
Qed.

Lemma point_env_coincident x c eps N M D i k :
  shape x = [N; D] → shape c = [M; D] →
  (∀ j, j < D →
     ∃ w, item x [i; j] = Some w ∧ item c [k; j] = Some w ∧ is_finite w = true) →
  ∀ j, j < D →
    lookup_arg (point_env x c eps D i k) ("x" +:+ pretty j)
    = lookup_arg (point_env x c eps D i k) ("c" +:+ pretty j)
    ∧ is_finite (lookup_arg (point_env x c eps D i k) ("x" +:+ pretty j)) = true.
Proof.
  intros Hx Hc Hsame j Hj. destruct (Hsame j Hj) as (w & Hxj & Hcj & Hfin).
  apply (item_two_inv x N D) in Hxj as (_ & _ & Hxj); [|done].
  apply (item_two_inv c M D) in Hcj as (_ & _ & Hcj); [|done].
  assert (Hin : j ∈ seq 0 D) by (apply elem_of_seq; lia).
  unfold point_env.
  rewrite (lookup_arg_fmap (λ j, "x" +:+ pretty j)
             (λ j, nth (i * D + j) (data x) nan)) by (done || apply x_name_inj).
  rewrite (lookup_arg_skip (λ j, "x" +:+ pretty j)) by (intros a; discriminate).
  rewrite (lookup_arg_fmap (λ j, "c" +:+ pretty j)
             (λ j, nth (k * D + j) (data c) nan)) by (done || apply c_name_inj).
  by rewrite Hxj, Hcj.
Qed.

Lemma point_env_eps x c eps D i k :
  lookup_arg (point_env x c eps D i k) _EPS = nth k (data (eps_array c eps)) nan.
Proof.
  unfold point_env.
  rewrite (lookup_arg_skip (λ j, "x" +:+ pretty j)) by (intros a; discriminate).
  rewrite (lookup_arg_skip (λ j, "c" +:+ pretty j)) by (intros a; discriminate).
  reflexivity.
Qed.

(** With a tolerance that is positive at the entry and a tabulated limit
    for the requested derivative, the entry for a point that coincides
    with a centre is the value of the tabulated limit. *)
Lemma tabulated_at_center x c eps diff st N M D i k t lim :
  cache_inv (self st) →
  tol (self st) = Some t →
  (0 <? eval (point_env x c eps D i k) t)%float = true →
  limits (self st) !! diff_key x diff = Some lim →
  shape x = [N; D] → shape c = [M; D] → shape (eps_array c eps) = [M] →
  length (diff_key x diff) = D → 0 < D → c_pow 0 2 = 0%float →
  (∀ j, j < D →
     ∃ w, item x [i; j] = Some w ∧ item c [k; j] = Some w ∧ is_finite w = true) →
  ∃ out, (__call__ x c eps diff st).2 = Ok out
         ∧ item out [i; k] = Some (eval (point_env x c eps D i k) lim).
Proof.
  intros Hinv Htol Hpos Hlim Hx Hc He Hkey HD Hpow Hsame.
  destruct (Hsame 0 HD) as (w0 & Hx0 & Hc0 & _).
  apply (item_two_inv x N D) in Hx0 as (Hi & _ & _); [|done].
  apply (item_two_inv c M D) in Hc0 as (Hk & _ & _); [|done].
  destruct (entry_value x c eps diff st N M D i k) as (out & Hout & _ & _ & Hitem);
    try done.
  exists out. split; [done|]. rewrite Hitem. f_equal.
  unfold compiled_expr, limit_value, r_sym_of, x_sym_of, c_sym_of.
  rewrite Htol, Hlim, Hkey. cbn [eval holds].
  rewrite eval_radial_coincident;
    [by rewrite Hpos | done | by apply (point_env_coincident x c eps N M)].
Qed.

(** X9: compiling ahead of time changes nothing that can be observed in a
    later call: on an object whose cache holds what it compiled, a call
    after [add_diff_to_cache] of its key returns what the call alone
    returns, and when the shapes are right both leave the same object. *)
Theorem call_after_prewarm (x c : ndarray) (eps : eps_arg) (diff : option pyseq)
    (st : state) :
  cache_inv (self st) →
  let st1 := (add_diff_to_cache (diff_key x diff) st).1 in
  (__call__ x c eps diff st1).2 = (__call__ x c eps diff st).2
  ∧ (is_ok (__call__ x c eps diff st).2 = true →
     self (__call__ x c eps diff st1).1 = self (__call__ x c eps diff st).1).
Proof.
  intros Hinv st1. subst st1. rewrite add_diff_to_cache_run, !call_unfold.
  destruct (shape_checks x c eps diff) as [[]|e]; [|done]. simpl.
  rewrite lookup_insert_eq.
  destruct (cache (self st) !! diff_key x diff) as [func|] eqn:Hhit; simpl.
  - rewrite (Hinv _ _ Hhit). split; [done|]. intros _.
    unfold set_cache. rewrite insert_id by (by rewrite Hhit, (Hinv _ _ Hhit)).
    by destruct (self st).
  - done.
Qed.

(** X10: every point is paired with every centre: for a call whose shapes
    are right (on an object whose cache holds what it compiled), the result
    has [N*M] elements and its entry [(i, k)] is the compiled expression
    evaluated at the coordinates of point [i], the coordinates of centre
    [k] and the shape parameter of centre [k]. *)
Theorem call_entry (x c : ndarray) (eps : eps_arg) (diff : option pyseq)
    (st : state) (N M D i k : nat) :
  cache_inv (self st) →
  shape x = [N; D] → shape c = [M; D] → shape (eps_array c eps) = [M] →
  length (diff_key x diff) = D → 0 < D → i < N → k < M →
  ∃ out, (__call__ x c eps diff st).2 = Ok out
         ∧ shape out = [N; M] ∧ length (data out) = N * M
         ∧ item out [i; k]
           = Some (eval (point_env x c eps D i k)
                        (compiled_expr (self st) (diff_key x diff))).
Proof. apply entry_value. Qed.

(** X11: what a call returns does not depend on the calls made before it:
    from any state the object reaches by being called, the call returns
    what it returns from the state the object started in. *)
Theorem call_history_independent (st0 st : state) (x c : ndarray) (eps : eps_arg)
    (diff : option pyseq) :
  called_from st0 st →
  (__call__ x c eps diff st).2 = (__call__ x c eps diff st0).2.
Proof.
  intros (He & Ht & Hl & Hcache)%called_from_cache. rewrite !call_unfold.
  destruct (shape_checks x c eps diff) as [[]|e]; [|done].
  destruct (Hcache (diff_key x diff)) as [Hsame|[Hnone Hsome]].
  - rewrite Hsame. destruct (cache (self st0) !! diff_key x diff); [done|].
    simpl. f_equal. by apply compiled_ext.
  - by rewrite Hnone, Hsome.
Qed.

(** X12: whichever of the four shape requirements fails, a wrong rank of
    [c] or of [eps] included, the call raises a [ValueError] and leaves the
    object, its cache and the trace as they were.  So a call that returns
    had [x] of shape [(N, D)], [c] of shape [(M, D)], [eps] of shape [(M,)]
    after conversion and [diff] of length [D] after defaulting. *)
Theorem call_rejects_bad_shapes (x c : ndarray) (eps : eps_arg)
    (diff : option pyseq) (st : state) :
  ¬ (∃ N D M, shape x = [N; D] ∧ shape c = [M; D]
              ∧ shape (eps_array c eps) = [M] ∧ length (diff_key x diff) = D) →
  (__call__ x c eps diff st).1 = st
  ∧ ∃ msg, (__call__ x c eps diff st).2 = Raise (ValueError msg).
Proof.
  intros Hbad. rewrite call_unfold.
  destruct (shape_checks x c eps diff) as [[]|e] eqn:Hchk.
  - destruct Hbad. by apply shape_checks_ok.
  - split; [done|]. apply shape_checks_error in Hchk as [msg ->]. eauto.
Qed.

(** X13: for any derivative that has an entry in the limits table, under a
    numeric positive tolerance, the entry of the result for a point whose
    finite coordinates are those of a centre is the value of that table
    entry, whatever the symbolic derivative is.  [pow(0, 2)] is assumed to
    be [0]. *)
Theorem call_tabulated_limit (x c : ndarray) (eps : eps_arg) (diff : option pyseq)
    (st : state) (N M D i k : nat) (t : float) (lim : Expr) :
  cache_inv (self st) →
  tol (self st) = Some (Float t) → (0 <? t)%float = true →
  limits (self st) !! diff_key x diff = Some lim →
  shape x = [N; D] → shape c = [M; D] → shape (eps_array c eps) = [M] →
  length (diff_key x diff) = D → 0 < D → c_pow 0 2 = 0%float →
  (∀ j, j < D →
     ∃ w, item x [i; j] = Some w ∧ item c [k; j] = Some w ∧ is_finite w = true) →
  ∃ out, (__call__ x c eps diff st).2 = Ok out
         ∧ item out [i; k] = Some (eval (point_env x c eps D i k) lim).
Proof.
  intros Hinv Htol Hpos.
  by apply (tabulated_at_center x c eps diff st N M D i k (Float t) lim).
Qed.

End MoreCalls.

Lemma call_after_prewarm_witness :
  (@__call__ textbook_engine small_libm sample_x sample_c (EpsScalar 2) None
     (@add_diff_to_cache textbook_engine [0; 0] new_state).1).2
  = (@__call__ textbook_engine small_libm sample_x sample_c (EpsScalar 2) None
       new_state).2.
Proof.
  apply (proj1 (@call_after_prewarm textbook_engine small_libm
                  sample_x sample_c (EpsScalar 2) None new_state
                  (empty_cache_inv (self new_state) eq_refl))).
Defined.

Lemma call_entry_witness :
  ∃ out, (@__call__ textbook_engine small_libm sample_x sample_c (EpsScalar 2) None
            new_state).2 = Ok out
         ∧ shape out = [3; 2] ∧ length (data out) = 3 * 2
         ∧ item out [2; 1]
           = Some (@eval small_libm
                     [("x0", 6); ("x1", 8); ("c0", 0); ("c1", 0); ("eps", 2)]%float
                     (@compiled_expr textbook_engine (self new_state) [0; 0])).
Proof.
  apply (@call_entry textbook_engine small_libm sample_x sample_c (EpsScalar 2)
           None new_state 3 2 2 2 1);
    [ by apply empty_cache_inv
    | reflexivity | reflexivity | reflexivity | reflexivity | lia | lia | lia ].
Defined.

Lemma call_history_independent_witness :
  (@__call__ textbook_engine small_libm sample_x sample_c (EpsScalar 2) None
     (@__call__ textbook_engine small_libm line_x line_c (EpsScalar 1) None
        new_state).1).2
  = (@__call__ textbook_engine small_libm sample_x sample_c (EpsScalar 2) None
       new_state).2.
Proof.
  apply (@call_history_independent textbook_engine small_libm new_state).
  apply called_from_call, called_from_start.
Defined.

(** A [c] of rank three, on an object that has a function in its cache. *)
Lemma call_rejects_bad_shapes_witness :
  let st := (@__call__ textbook_engine small_libm line_x line_c (EpsScalar 1) None
               new_state).1 in
  (@__call__ textbook_engine small_libm sample_x
     {| shape := [2; 2; 1]; data := [3; 4; 0; 0]%float |} (EpsScalar 2) None st).1
  = st.
Proof.
  intros st.
  apply (proj1 (@call_rejects_bad_shapes textbook_engine small_libm sample_x
                  {| shape := [2; 2; 1]; data := [3; 4; 0; 0]%float |}
                  (EpsScalar 2) None st
                  ltac:(intros (N & D & M & _ & Hc & _); discriminate))).
Defined.

Lemma call_tabulated_limit_witness :
  ∃ out, (@__call__ textbook_engine small_libm sample_x sample_c (EpsScalar 2)
            (Some (PyTuple [1; 0])) tabulated_state).2 = Ok out
         ∧ item out [1; 0] = Some 7%float.
Proof.
  apply (@call_tabulated_limit textbook_engine small_libm sample_x sample_c
           (EpsScalar 2) (Some (PyTuple [1; 0])) tabulated_state 3 2 2 1 0
           tol_1e_10 (Integer 7));
    [ by apply empty_cache_inv
    | reflexivity | reflexivity | reflexivity | reflexivity | reflexivity
    | reflexivity | reflexivity | lia | reflexivity | ].
  intros [|[|j]] Hj; [by exists 3%float | by exists 4%float | lia].
Defined.

(* ================================================================== *)
(** * _replace_nan *)

Lemma nan_to_zero_no_nan a : Forall (λ v, is_nan v = false) (data (nan_to_zero a)).
Proof.
  unfold nan_to_zero. cbn [data]. apply Forall_fmap, Forall_forall.
  intros v _. simpl. by destruct (is_nan v) eqn:Hv.
Qed.

Lemma nan_to_zero_clean a :
  Forall (λ v, is_nan v = false) (data a) → nan_to_zero a = a.
Proof.
  intros Hclean. destruct a as [sh dt]. unfold nan_to_zero. cbn [shape data] in *.
  f_equal. induction Hclean as [|v dt Hv _ IH]; [done|].
  rewrite fmap_cons, IH. by rewrite Hv.
Qed.

(** X14: [_replace_nan] returns the reference it was given; the array
    behind it keeps its shape and length, has [0] where it had a NaN and
    its old value elsewhere, so holds no NaN; no other array of the store
    is touched. *)
Theorem replace_nan_in_place (x : nat) (store : list ndarray) (a : ndarray) :
  store !! x = Some a →
  (_replace_nan x store).2 = Ok x
  ∧ ∃ b, (_replace_nan x store).1 !! x = Some b
         ∧ shape b = shape a ∧ length (data b) = length (data a)
         ∧ (∀ n v, data a !! n = Some v →
              data b !! n = Some (if is_nan v then 0%float else v))
         ∧ Forall (λ v, is_nan v = false) (data b)
         ∧ ∀ l, l ≠ x → (_replace_nan x store).1 !! l = store !! l.
Proof.
  intros Hx. unfold _replace_nan. rewrite Hx. cbn [fst snd]. split; [done|].
  exists (nan_to_zero a).
  split; [by apply list_lookup_insert_eq, lookup_lt_Some with a|].
  split; [done|]. split; [by unfold nan_to_zero; cbn; rewrite length_fmap|].
  split.
  - intros n v Hv. unfold nan_to_zero. cbn [data].
    by rewrite list_lookup_fmap, Hv.
  - split; [apply nan_to_zero_no_nan|].
    intros l Hl. by apply list_lookup_insert_ne.
Qed.

Lemma replace_nan_in_place_witness :
  (_replace_nan 1 [line_c; {| shape := [3]; data := [1; nan; 2]%float |}]).2
  = Ok 1.
Proof.
  apply (proj1 (replace_nan_in_place 1
                  [line_c; {| shape := [3]; data := [1; nan; 2]%float |}]
                  {| shape := [3]; data := [1; nan; 2]%float |} eq_refl)).
Defined.

(** X15: applying [_replace_nan] a second time changes nothing, and an
    array without NaN is left exactly as it is. *)
Theorem replace_nan_idempotent (x : nat) (store : list ndarray) :
  _replace_nan x (_replace_nan x store).1 = _replace_nan x store
  ∧ match store !! x with
    | Some a =>
        Forall (λ v, is_nan v = false) (data a) → (_replace_nan x store).1 = store
    | None => (_replace_nan x store).1 = store
    end.
Proof.
  unfold _replace_nan. destruct (store !! x) as [a|] eqn:Hx; cbn [fst snd].
  - assert (Hlt : x < length store) by by apply lookup_lt_Some with a.
    split.
    + rewrite list_lookup_insert_eq by done. cbn [fst snd].
      rewrite list_insert_insert_eq.
      by rewrite (nan_to_zero_clean (nan_to_zero a)) by apply nan_to_zero_no_nan.
    + intros Hclean. rewrite nan_to_zero_clean by done.
      by apply list_insert_id.
  - by rewrite Hx.
Qed.

(* ================================================================== *)
(** * _fix_lambdified_output *)

(** X16: when the wrapped function returns a scalar, the wrapper returns
    the array of shape [(x.shape[0], eps.shape[0])] filled with it, [x] and
    [eps] being the first and the last argument; when it returns an array,
    the wrapper returns that array. *)
Theorem fix_output_cases (fin : list ndarray → result np_value)
    (args : list ndarray) (x eps : ndarray) :
  head args = Some x → last args = Some eps →
  (∀ v n m sx se, fin args = Ok (Scalar v) →
     shape x = n :: sx → shape eps = m :: se →
     _fix_lambdified_output fin args
     = inr (Array {| shape := [n; m]; data := replicate (n * m) v |}))
  ∧ (∀ a, fin args = Ok (Array a) →
     _fix_lambdified_output fin args = inr (Array a)).
Proof.
  intros Hhead Hlast. unfold _fix_lambdified_output. rewrite Hhead, Hlast. split.
  - intros v n m sx se -> -> ->. unfold np_full_shape. simpl.
    by rewrite Nat.mul_1_r.
  - by intros a ->.
Qed.

Lemma fix_output_cases_witness :
  _fix_lambdified_output (λ _, Ok (Scalar 5)) [sample_x; line_c; sample_c]
  = inr (Array {| shape := [3; 2]; data := replicate (3 * 2) 5%float |}).
Proof.
  apply (proj1 (fix_output_cases (λ _, Ok (Scalar 5)) [sample_x; line_c; sample_c]
                  sample_x sample_c eq_refl eq_refl) 5%float 3 2 [2] [2]);
    reflexivity.
Defined.

(** X17: the wrapper passes on what the wrapped function raises; called
    with no positional argument it fails with an index error even when the
    wrapped function returned an array; and a scalar result cannot be
    expanded when the first or the last argument has no axis. *)
Theorem fix_output_errors (fin : list ndarray → result np_value)
    (args : list ndarray) :
  (∀ e, fin args = Raise e → _fix_lambdified_output fin args = inl (Raised e))
  ∧ (∀ out, fin args = Ok out → args = [] →
     _fix_lambdified_output fin args = inl (IndexError "tuple index out of range"))
  ∧ (∀ v x eps, fin args = Ok (Scalar v) →
     head args = Some x → last args = Some eps → shape x = [] ∨ shape eps = [] →
     _fix_lambdified_output fin args = inl (IndexError "tuple index out of range")).
Proof.
  unfold _fix_lambdified_output. repeat split.
  - by intros e ->.
  - by intros out -> ->.
  - intros v x eps -> -> -> [Hsh|Hsh]; rewrite Hsh; [done|].
    by destruct (shape x).
Qed.

Lemma fix_output_errors_witness :
  _fix_lambdified_output (λ _, Ok (Array sample_x)) []
  = inl (IndexError "tuple index out of range").
Proof.
  apply (proj1 (proj2 (fix_output_errors (λ _, Ok (Array sample_x)) []))
           (Array sample_x)); reflexivity.
Defined.

Lemma call_args_head x c eps N M D :
  shape x = [N; D] → shape c = [M; D] → shape (eps_array c eps) = [M] →
  ∃ first, head (call_args x c eps) = Some first
           ∧ shape first = if decide (D = 0) then [M] else [N; 1].
Proof.
  intros Hx Hc He. unfold call_args.
  rewrite (x_args x N D Hx), (c_args c M D Hc).
  destruct D as [|D]; cbn; eauto.
Qed.

Lemma call_args_last x c eps :
  last (call_args x c eps) = Some (eps_array c eps).
Proof. unfold call_args. by rewrite !app_assoc, last_snoc. Qed.

(** X18: on the arguments [__call__] builds, a scalar result is expanded
    to shape [(N, M)], the shape a compiled function returns, when there is
    at least one spatial axis; with none, the first argument is [eps]
    itself and the shape is [(M, M)]. *)
Theorem fix_output_on_call_args (fin : list ndarray → result np_value)
    (x c : ndarray) (eps : eps_arg) (v : float) (N M D : nat) :
  shape x = [N; D] → shape c = [M; D] → shape (eps_array c eps) = [M] →
  fin (call_args x c eps) = Ok (Scalar v) →
  _fix_lambdified_output fin (call_args x c eps)
  = inr (Array (np_full_shape [if decide (D = 0) then M else N; M] v)).
Proof.
  intros Hx Hc He Hfin.
  destruct (call_args_head x c eps N M D Hx Hc He) as (first & Hhead & Hfirst).
  unfold _fix_lambdified_output.
  rewrite Hfin, Hhead, call_args_last, Hfirst, He.
  by case_decide.
Qed.

Lemma fix_output_on_call_args_witness :
  _fix_lambdified_output (λ _, Ok (Scalar 1)) (call_args sample_x sample_c (EpsScalar 2))
  = inr (Array (np_full_shape [3; 2] 1%float)).
Proof.
  apply (fix_output_on_call_args (λ _, Ok (Scalar 1)) sample_x sample_c
           (EpsScalar 2) 1%float 3 2 2); reflexivity.
Defined.

(* ================================================================== *)
(** * The catalogue *)

Lemma seed_limits_fields keys v : ∀ self0,
  expr (seed_limits self0 keys v) = expr self0
  ∧ tol (seed_limits self0 keys v) = tol self0
  ∧ cache (seed_limits self0 keys v) = cache self0.
Proof.
  induction keys as [|key keys IH]; intros self0; [done|].
  unfold seed_limits in *. cbn [foldl].
  by destruct (IH (set_limits self0 (<[key:=v]> (limits self0)))) as (-> & -> & ->).
Qed.

Lemma seed_limits_lookup keys v key : ∀ self0,
  limits (seed_limits self0 keys v) !! key
  = if decide (key ∈ keys) then Some v else limits self0 !! key.
Proof.
  induction keys as [|key0 keys IH]; intros self0.
  - by rewrite decide_False by apply not_elem_of_nil.
  - unfold seed_limits in *. cbn [foldl]. rewrite IH. cbn [limits set_limits].
    destruct (decide (key ∈ keys)) as [Hin|Hout].
    + by rewrite decide_True by (by apply elem_of_cons; right).
    + destruct (decide (key0 = key)) as [->|Hne].
      * rewrite lookup_insert_eq. by rewrite decide_True by apply list_elem_of_here.
      * rewrite lookup_insert_ne by done.
        rewrite decide_False; [done|].
        intros [?|?]%elem_of_cons; congruence.
Qed.

(** The all-zeros index is among the indices of every order. *)
Lemma zeros_in_powers dim : ∀ order, replicate dim 0 ∈ powers order dim.
Proof.
  induction dim as [|dim IH]; intros order; [by apply list_elem_of_here|].
  cbn [powers replicate seq flat_map]. apply elem_of_app. left.
  rewrite Nat.sub_0_r. apply list_elem_of_fmap. eauto.
Qed.

Lemma seed_limits_tol keys v self0 : tol (seed_limits self0 keys v) = tol self0.
Proof. apply seed_limits_fields. Qed.

Lemma seed_limits_cache keys v self0 :
  cache (seed_limits self0 keys v) = cache self0.
Proof. apply seed_limits_fields. Qed.

Lemma seed_limits_expr keys v self0 :
  expr (seed_limits self0 keys v) = expr self0.
Proof. apply seed_limits_fields. Qed.

(** What loading a polyharmonic spline leaves: the tolerance [1e-10], an
    empty cache, and a table in which every entry is [0] and the all-zeros
    index of dimensions one to three is present. *)
Lemma load_phs_fields e K obj :
  load_phs e K = Ok obj →
  tol obj = Some (Float tol_1e_10) ∧ cache obj = ∅
  ∧ (∀ key lim, limits obj !! key = Some lim → lim = Integer 0)
  ∧ (∀ D, 1 ≤ D ≤ 3 → limits obj !! replicate D 0 = Some (Integer 0)).
Proof.
  unfold load_phs, mbind, result_bind.
  destruct (__init__ e None None) as [self0|] eqn:Hinit; [|done].
  apply init_ok in Hinit as (_ & _ & _ & _ & Hc & Hl).
  pose proof (zeros_in_powers 1 (K - 1)) as H1.
  pose proof (zeros_in_powers 2 (K - 1)) as H2.
  pose proof (zeros_in_powers 3 (K - 1)) as H3.
  revert H1 H2 H3.
  generalize (powers (K - 1) 1) (powers (K - 1) 2) (powers (K - 1) 3).
  intros p1 p2 p3 H1 H2 H3 Hobj. injection Hobj as Hobj. subst obj.
  split; [by rewrite !seed_limits_tol|].
  split; [by rewrite !seed_limits_cache|].
  split.
  - intros key lim. rewrite !seed_limits_lookup. cbn [limits set_tol].
    rewrite Hl, lookup_empty. repeat case_decide; congruence.
  - intros D HD. rewrite !seed_limits_lookup.
    destruct D as [|[|[|[|D]]]]; try lia; repeat case_decide; done.
Qed.

Lemma phs_family_loaded p K :
  (p, K) ∈ phs_family → ∃ e, p = load_phs e K.
Proof.
  unfold phs_family. rewrite !elem_of_cons, elem_of_nil.
  intros [Hp|[Hp|[Hp|[Hp|[Hp|[Hp|[Hp|[Hp|[]]]]]]]]]; simplify_eq;
    [by exists phs1_expr | by exists phs2_expr | by exists phs3_expr
    | by exists phs4_expr | by exists phs5_expr | by exists phs6_expr
    | by exists phs7_expr | by exists phs8_expr].
Qed.

(** X19: loading the module raises nothing: each of the sixteen
    expressions of the catalogue passes the checks of the constructor, and
    is stored as written because it contains [eps]. *)
Theorem catalogue_constructs :
  Forall (λ e, ∃ self0, __init__ e None None = Ok self0 ∧ expr self0 = e
                        ∧ tol self0 = None ∧ cache self0 = ∅ ∧ limits self0 = ∅)
    catalogue_exprs.
Proof.
  unfold catalogue_exprs. repeat constructor; eexists; (split; [reflexivity|done]).
Qed.

Section CatalogueValues.
Context `{SymbolicEngine} `{Libm}.

(** X20: for each of the eight polyharmonic splines of the catalogue,
    called any number of times since the module was loaded, the entry of
    the result for a point whose finite coordinates are those of a centre
    is exactly [0], with [diff] omitted in one to three dimensions and for
    every derivative that has an entry in the spline's limits table.
    [pow(0, 2)] is assumed to be [0]. *)
Theorem phs_zero_at_center (p : result RBF) (K : nat) (obj : RBF)
    (x c : ndarray) (eps : eps_arg) (diff : option pyseq) (st : state)
    (N M D i k : nat) :
  (p, K) ∈ phs_family → p = Ok obj →
  expr (self st) = expr obj → tol (self st) = tol obj →
  limits (self st) = limits obj → cache_inv (self st) →
  shape x = [N; D] → shape c = [M; D] → shape (eps_array c eps) = [M] →
  length (diff_key x diff) = D → 0 < D →
  (diff = None ∧ D ≤ 3) ∨ is_Some (limits obj !! diff_key x diff) →
  c_pow 0 2 = 0%float →
  (∀ j, j < D →
     ∃ w, item x [i; j] = Some w ∧ item c [k; j] = Some w ∧ is_finite w = true) →
  ∃ out, (__call__ x c eps diff st).2 = Ok out
         ∧ item out [i; k] = Some 0%float.
Proof.
  intros [e ->]%phs_family_loaded (Ht & _ & Hzero & Hzeros)%load_phs_fields
    _ Htol Hlim Hinv Hx Hc He Hkey HD Htable Hpow Hsame.
  assert (Hentry : limits (self st) !! diff_key x diff = Some (Integer 0)).
  { rewrite Hlim. destruct Htable as [[-> HD3]|[lim Hlim']].
    - simpl. unfold shape_at. rewrite Hx. simpl. apply Hzeros. lia.
    - by rewrite Hlim', (Hzero _ _ Hlim'). }
  destruct (tabulated_at_center x c eps diff st N M D i k (Float tol_1e_10)
              (Integer 0)) as (out & Hout & Hitem); try done.
  { by rewrite Htol. }
  by exists out.
Qed.

(** X21: for the two Matérn functions of the catalogue, whose tolerance is
    [1e-10*eps], the entry of the result with [diff] omitted, in one or two
    dimensions, for a point whose finite coordinates are those of a centre
    is exactly [1], provided the tolerance of that centre is positive in
    double arithmetic.  [pow(0, 2)] is assumed to be [0]. *)
Theorem matern_one_at_center (p : result RBF) (obj : RBF)
    (x c : ndarray) (eps : eps_arg) (st : state) (N M D i k : nat) :
  p = mat32 ∨ p = mat52 → p = Ok obj →
  expr (self st) = expr obj → tol (self st) = tol obj →
  limits (self st) = limits obj → cache_inv (self st) →
  shape x = [N; D] → shape c = [M; D] → shape (eps_array c eps) = [M] →
  1 ≤ D ≤ 2 →
  (0 <? tol_1e_10 * nth k (data (eps_array c eps)) nan)%float = true →
  c_pow 0 2 = 0%float →
  (∀ j, j < D →
     ∃ w, item x [i; j] = Some w ∧ item c [k; j] = Some w ∧ is_finite w = true) →
  ∃ out, (__call__ x c eps None st).2 = Ok out
         ∧ item out [i; k] = Some 1%float.
Proof.
  intros Hp Hobj _ Htol Hlim Hinv Hx Hc He HD Hpos Hpow Hsame.
  assert (Hkey : diff_key x None = replicate D 0).
  { simpl. unfold shape_at. by rewrite Hx. }
  assert (Hfields : tol obj = Some mat_tol
                    ∧ limits obj !! replicate D 0 = Some (Integer 1)).
  { destruct Hp as [-> | ->]; injection Hobj as <-;
      (split; [reflexivity|]);
      destruct D as [|[|[|D]]]; try lia; reflexivity. }
  destruct Hfields as [Ht Hone].
  destruct (tabulated_at_center x c eps None st N M D i k mat_tol (Integer 1))
    as (out & Hout & Hitem); try done.
  - by rewrite Htol.
  - unfold mat_tol. cbn [eval]. by rewrite point_env_eps.
  - by rewrite Hlim, Hkey.
  - rewrite Hkey. apply length_replicate.
  - lia.
  - by exists out.
Qed.

End CatalogueValues.

Lemma phs_zero_at_center_witness :
  ∃ obj, phs3 = Ok obj
  ∧ ∃ out, (@__call__ textbook_engine small_libm sample_x sample_c (EpsScalar 2)
              (Some (PyTuple [1; 1])) {| self := obj; trace := [] |}).2 = Ok out
           ∧ item out [1; 0] = Some 0%float.
Proof.
  eexists. split; [reflexivity|].
  eapply (@phs_zero_at_center textbook_engine small_libm phs3 3 _
            sample_x sample_c (EpsScalar 2) (Some (PyTuple [1; 1])) _ 3 2 2 1 0);
    [ by repeat (apply list_elem_of_here || apply list_elem_of_further)
    | reflexivity | reflexivity | reflexivity | reflexivity
    | by apply empty_cache_inv
    | reflexivity | reflexivity | reflexivity | reflexivity | lia
    | right; by eexists | reflexivity | ].
  intros [|[|j]] Hj; [by exists 3%float | by exists 4%float | lia].
Defined.

Lemma matern_one_at_center_witness :
  ∃ obj, mat32 = Ok obj
  ∧ ∃ out, (@__call__ textbook_engine small_libm sample_x sample_c (EpsScalar 2)
              None {| self := obj; trace := [] |}).2 = Ok out
           ∧ item out [1; 0] = Some 1%float.
Proof.
  eexists. split; [reflexivity|].
  eapply (@matern_one_at_center textbook_engine small_libm mat32 _
            sample_x sample_c (EpsScalar 2) _ 3 2 2 1 0);
    [ by left | reflexivity | reflexivity | reflexivity | reflexivity
    | by apply empty_cache_inv
    | reflexivity | reflexivity | reflexivity | lia | reflexivity | reflexivity | ].
  intros [|[|j]] Hj; [by exists 3%float | by exists 4%float | lia].
Defined.

(* ================================================================== *)
(** * The object over its lifetime *)

Section Lifetime.
Context `{SymbolicEngine} `{Libm}.

Lemma add_diff_to_cache_inv diff st :
  cache_inv (self st) → cache_inv (self (add_diff_to_cache diff st).1).
Proof.
  intros Hinv. rewrite add_diff_to_cache_run. intros k f. simpl.
  rewrite lookup_insert. case_decide as Hk.
  - intros [= <-]. by subst k.
  - apply Hinv.
Qed.

(** X22: from its construction on, through any sequence of calls and of
    direct calls of [add_diff_to_cache], an object keeps its expression,
    tolerance and limits, every function in its cache is the one compiled
    from them for its key, and takes the coordinates of a point, those of
    a centre and [eps] as arguments. *)
Theorem object_invariant (e : Expr) (tolerance : option Expr)
    (lims : option (gmap (list nat) Expr)) (obj : RBF) (st : state) :
  __init__ e tolerance lims = Ok obj →
  used_from {| self := obj; trace := [] |} st →
  expr (self st) = expr obj ∧ tol (self st) = tol obj
  ∧ limits (self st) = limits obj
  ∧ cache_inv (self st) ∧ cache_arity (self st).
Proof.
  intros Hinit Hused.
  assert (Hmain : expr (self st) = expr obj ∧ tol (self st) = tol obj
                  ∧ limits (self st) = limits obj ∧ cache_inv (self st)).
  { induction Hused as [|st x c eps diff _ (He & Ht & Hl & Hinv)
                        |st diff _ (He & Ht & Hl & Hinv)].
    - repeat split. by eapply init_cache_inv.
    - destruct (call_frame x c eps diff st) as (He' & Ht' & Hl').
      rewrite He', Ht', Hl'. repeat split; try done. by apply call_cache_inv.
    - split; [|split; [|split]]; try (by rewrite add_diff_to_cache_run).
      by apply add_diff_to_cache_inv. }
  destruct Hmain as (He & Ht & Hl & Hinv). repeat split; try done.
  by apply cache_inv_arity.
Qed.

End Lifetime.

Lemma object_invariant_witness :
  @cache_inv textbook_engine
    (self (@add_diff_to_cache textbook_engine [1; 0]
             (@__call__ textbook_engine small_libm sample_x sample_c (EpsScalar 2)
                None new_state).1).1).
Proof.
  apply (@object_invariant textbook_engine small_libm (Symbol "r") None None
           (self new_state) _ eq_refl).
  apply used_from_compile, used_from_call, used_from_start.
Defined.

